(** * textual/_cache.py: LRUCache and FIFOCache

    A shallow embedding of the two cache containers of [src/textual/_cache.py]
    and the properties their specification states about them.

    Modelling decisions, shared by the whole file:
    - Python [int] is [Z]; a key type is any type with decidable equality
      (countable for [LRUCache], whose [dict] is a [gmap]).
    - Python objects with identity (the [PREV, NEXT, KEY, VALUE] lists of
      [LRUCache]) live in an object store addressed by [addr]; two
      references are the same object ([is]) iff the addresses are equal.
    - A method is a computation in a state-and-exception monad: it returns
      a value or raises, and in both cases yields the state it leaves
      behind (an exception does not roll anything back).
    - The [Lock] is not modelled: every claim here is about one thread. *)

From stdpp Require Import gmap strings list fin_maps.
From Stdlib Require Import ZArith.

Local Open Scope Z_scope.

(** ** Exceptions and the method monad *)

Inductive exn (K : Type) : Type :=
| KeyError (key : K)
| IndexError
| StopIteration.
Arguments KeyError {K} key.
Arguments IndexError {K}.
Arguments StopIteration {K}.

Inductive result (K A : Type) : Type :=
| Ok (a : A)
| Raise (e : exn K).
Arguments Ok {K A} a.
Arguments Raise {K A} e.

(** A method on an object of state [S]. *)
Definition M (K S A : Type) : Type := S → result K A * S.

Definition ret {K S A} (a : A) : M K S A := λ s, (Ok a, s).
Definition raise {K S A} (e : exn K) : M K S A := λ s, (Raise e, s).
Definition bind {K S A B} (c : M K S A) (f : A → M K S B) : M K S B :=
  λ s, match c s with
       | (Ok a, s') => f a s'
       | (Raise e, s') => (Raise e, s')
       end.
Definition gets {K S A} (f : S → A) : M K S A := λ s, (Ok (f s), s).
Definition modify {K S} (f : S → S) : M K S unit := λ s, (Ok tt, f s).

(** [try: c  except KeyError: h  finally: fin] *)
Definition try_except_finally {K S A}
    (c : M K S A) (h : M K S A) (fin : M K S unit) : M K S A :=
  λ s,
    let '(r, s1) :=
      match c s with
      | (Raise (KeyError _), s') => h s'
      | other => other
      end in
    match fin s1 with
    | (Ok _, s2) => (r, s2)
    | (Raise e, s2) => (Raise e, s2)
    end.

Declare Scope py_scope.
Delimit Scope py_scope with py.
Notation "x <- c ;; k" := (bind c (λ x, k))
  (at level 100, c at next level, right associativity) : py_scope.
Notation "c ;;; k" := (bind c (λ _, k))
  (at level 100, right associativity) : py_scope.

(** Running a list of calls in order, stopping at the first exception. *)
Fixpoint run_all {K S} (cs : list (M K S unit)) : M K S unit :=
  match cs with
  | [] => ret tt
  | c :: cs' => (c ;;; run_all cs')%py
  end.

(** ** LRUCache *)

Module LRUCache.
Section defs.
Context {K : Type} `{Countable K} {V : Type}.

(** Identity of a list object. *)
Abbreviation addr := nat.

(** A non-empty entry [[PREV, NEXT, KEY, VALUE]]. *)
Record link : Type := Link { PREV : addr; NEXT : addr; KEY : K; VALUE : V }.

(** Every list object of this class is [[]] ([None]) or a four-element
    entry ([Some]): an [option link]. The record below holds the instance
    attributes, and the store of the list objects the attributes and
    entries refer to. *)
Record t : Type := Build {
  _maxsize : Z;
  _cache : gmap K addr;
  _full : bool;
  _head : addr;
  hits : Z;
  misses : Z;
  store : list (option link)
}.

Definition with_maxsize (x : Z) (s : t) : t :=
  Build x (_cache s) (_full s) (_head s) (hits s) (misses s) (store s).
Definition with_cache (x : gmap K addr) (s : t) : t :=
  Build (_maxsize s) x (_full s) (_head s) (hits s) (misses s) (store s).
Definition with_full (x : bool) (s : t) : t :=
  Build (_maxsize s) (_cache s) x (_head s) (hits s) (misses s) (store s).
Definition with_head (x : addr) (s : t) : t :=
  Build (_maxsize s) (_cache s) (_full s) x (hits s) (misses s) (store s).
Definition with_hits (x : Z) (s : t) : t :=
  Build (_maxsize s) (_cache s) (_full s) (_head s) x (misses s) (store s).
Definition with_misses (x : Z) (s : t) : t :=
  Build (_maxsize s) (_cache s) (_full s) (_head s) (hits s) x (store s).
Definition with_store (x : list (option link)) (s : t) : t :=
  Build (_maxsize s) (_cache s) (_full s) (_head s) (hits s) (misses s) x.

Abbreviation Meth := (M K t).

(** *** The object store *)

(** The list object at [a]. Every reference the program holds is live;
    an address outside the store (no Python counterpart) reads as [[]]. *)
Definition deref (st : list (option link)) (a : addr) : option link :=
  match st !! a with Some c => c | None => None end.

(** A list display [[...]] creates a new object. *)
Definition new_list (c : option link) : Meth addr :=
  λ s, (Ok (length (store s)), with_store (store s ++ [c]) s).

(** [bool(a)]: a list is true iff it is not empty. *)
Definition truthy (a : addr) : Meth bool :=
  gets (λ s, bool_decide (deref (store s) a ≠ None)).

(** [a[0]], [a[1]], [a[2]], [a[3]] *)
Definition getitem_field {A} (f : link → A) (a : addr) : Meth A :=
  λ s, match deref (store s) a with
       | Some lk => (Ok (f lk), s)
       | None => (Raise IndexError, s)
       end.
Definition item0 : addr → Meth addr := getitem_field PREV.
Definition item1 : addr → Meth addr := getitem_field NEXT.
Definition item2 : addr → Meth K := getitem_field KEY.
Definition item3 : addr → Meth V := getitem_field VALUE.

(** [a[0] = x] and [a[1] = x] *)
Definition setitem_with (f : link → link) (a : addr) : Meth unit :=
  λ s, match deref (store s) a with
       | Some lk => (Ok tt, with_store (<[a := Some (f lk)]> (store s)) s)
       | None => (Raise IndexError, s)
       end.
Definition setitem0 (a x : addr) : Meth unit :=
  setitem_with (λ lk, Link x (NEXT lk) (KEY lk) (VALUE lk)) a.
Definition setitem1 (a x : addr) : Meth unit :=
  setitem_with (λ lk, Link (PREV lk) x (KEY lk) (VALUE lk)) a.

(** [a[:] = [p, n, key, value]]: the object [a] keeps its identity and
    gets new contents. *)
Definition slice_assign (a : addr) (c : link) : Meth unit :=
  modify (λ s, with_store (<[a := Some c]> (store s)) s).

(** [del self._cache[key]] *)
Definition cache_delitem (key : K) : Meth unit :=
  λ s, match _cache s !! key with
       | Some _ => (Ok tt, with_cache (delete key (_cache s)) s)
       | None => (Raise (KeyError key), s)
       end.

(** *** Methods *)

(** [__init__]: [self._head = []] is a new empty list object. *)
Definition __init__ (maxsize : Z) : t :=
  Build maxsize ∅ false 0%nat 0 0 [None].

(** The [maxsize] property: getter and setter. *)
Definition maxsize : Meth Z := gets _maxsize.
Definition set_maxsize (maxsize : Z) : Meth unit :=
  modify (with_maxsize maxsize).

Definition __len__ : Meth Z := gets (λ s, Z.of_nat (size (_cache s))).

Definition grow (maxsize' : Z) : Meth unit :=
  (cur <- maxsize ;;
   set_maxsize (Z.max cur maxsize'))%py.

Definition clear : Meth unit :=
  (modify (with_cache ∅) ;;;
   modify (with_full false) ;;;
   a <- new_list None ;;
   modify (with_head a))%py.

Definition set (key : K) (value : V) : Meth unit :=
  (link <- gets (λ s, _cache s !! key) ;;
   match link with
   | Some _ => ret tt
   | None =>
     head <- gets _head ;;
     nonempty <- truthy head ;;
     (if negb nonempty then
        (* First link references itself *)
        slice_assign head (Link head head key value)
      else
        (* Add a new root to the beginning *)
        p <- item0 head ;;
        new <- new_list (Some (Link p head key value)) ;;
        modify (with_head new) ;;;
        (* Updated references on previous root *)
        p' <- item0 head ;;
        setitem1 p' new ;;;
        setitem0 head new) ;;;
     h <- gets _head ;;
     modify (λ s, with_cache (<[key := h]> (_cache s)) s) ;;;
     full <- gets _full ;;
     n <- __len__ ;;
     m <- gets _maxsize ;;
     if full || (m <? n) then
       (* Cache is full, we need to evict the oldest one *)
       modify (with_full true) ;;;
       head <- gets _head ;;
       last <- item0 head ;;
       lp <- item0 last ;;
       setitem1 lp head ;;;
       lp' <- item0 last ;;
       setitem0 head lp' ;;;
       k <- item2 last ;;
       cache_delitem k
     else ret tt
   end)%py.

(** The relinking shared, line for line, by [get] and [__getitem__]. *)
Definition promote (link : addr) : Meth unit :=
  (h <- gets _head ;;
   if bool_decide (link ≠ h) then
     (* Remove link from list *)
     n <- item1 link ;;
     p <- item0 link ;;
     setitem1 p n ;;;
     p' <- item0 link ;;
     n' <- item1 link ;;
     setitem0 n' p' ;;;
     head <- gets _head ;;
     (* Move link to head of list *)
     hp <- item0 head ;;
     setitem0 link hp ;;;
     setitem1 link head ;;;
     modify (with_head link) ;;;
     hp' <- item0 head ;;
     setitem1 hp' link ;;;
     setitem0 head link
   else ret tt)%py.

(** [get(key, default)] returns the cached value ([inl]) or the
    default ([inr]). *)
Definition get {D : Type} (key : K) (default : D) : Meth (V + D) :=
  (link <- gets (λ s, _cache s !! key) ;;
   match link with
   | None =>
     modify (λ s, with_misses (misses s + 1) s) ;;;
     ret (inr default)
   | Some link =>
     promote link ;;;
     modify (λ s, with_hits (hits s + 1) s) ;;;
     v <- item3 link ;;
     ret (inl v)
   end)%py.

Definition __getitem__ (key : K) : Meth V :=
  (link <- gets (λ s, _cache s !! key) ;;
   match link with
   | None =>
     modify (λ s, with_misses (misses s + 1) s) ;;;
     raise (KeyError key)
   | Some link =>
     promote link ;;;
     modify (λ s, with_hits (hits s + 1) s) ;;;
     item3 link
   end)%py.

Definition __contains__ (key : K) : Meth bool :=
  gets (λ s, bool_decide (is_Some (_cache s !! key))).

Definition __setitem__ : K → V → Meth unit := set.

Definition __bool__ : Meth bool := gets (λ s, bool_decide (_cache s ≠ ∅)).

(** [keys()]: a view of the keys; its order is not modelled. *)
Definition keys : Meth (gset K) := gets (λ s, dom (_cache s)).

End defs.
Arguments link : clear implicits.
Arguments t K {_ _} V.
End LRUCache.
Abbreviation addr := nat.

(** ** FIFOCache *)

Module FIFOCache.
Section defs.
Context {K : Type} `{EqDecision K} {V : Type}.

(** A Python [dict] where iteration order matters: the entries in
    insertion order, one per key. *)
Definition dict : Type := list (K * V).

(** [d.get(key)] *)
Fixpoint dict_get (key : K) (d : dict) : option V :=
  match d with
  | [] => None
  | (k, v) :: d' => if decide (k = key) then Some v else dict_get key d'
  end.

(** [key in d] *)
Definition dict_contains (key : K) (d : dict) : bool :=
  bool_decide (is_Some (dict_get key d)).

(** [d[key] = value]: an existing key keeps its position, a new key goes
    to the end. *)
Fixpoint dict_setitem (key : K) (value : V) (d : dict) : dict :=
  match d with
  | [] => [(key, value)]
  | (k, v) :: d' =>
    if decide (k = key) then (k, value) :: d'
    else (k, v) :: dict_setitem key value d'
  end.

(** [d] without the entry of [key] *)
Fixpoint dict_remove (key : K) (d : dict) : dict :=
  match d with
  | [] => []
  | (k, v) :: d' =>
    if decide (k = key) then d' else (k, v) :: dict_remove key d'
  end.

(** [d.keys()] in iteration order *)
Definition dict_keys (d : dict) : list K := d.*1.

Record t : Type := Build {
  _maxsize : Z;
  _cache : dict;
  hits : Z;
  misses : Z
}.

Definition with_cache (x : dict) (s : t) : t :=
  Build (_maxsize s) x (hits s) (misses s).
Definition with_hits (x : Z) (s : t) : t :=
  Build (_maxsize s) (_cache s) x (misses s).
Definition with_misses (x : Z) (s : t) : t :=
  Build (_maxsize s) (_cache s) (hits s) x.

Abbreviation Meth := (M K t).

Definition __init__ (maxsize : Z) : t := Build maxsize [] 0 0.

Definition __len__ : Meth Z := gets (λ s, Z.of_nat (length (_cache s))).

Definition clear : Meth unit := modify (with_cache []).

Definition keys : Meth (list K) := gets (λ s, dict_keys (_cache s)).

(** [next(iter(self._cache.keys()))] *)
Definition first_key : Meth K :=
  λ s, match dict_keys (_cache s) with
       | k :: _ => (Ok k, s)
       | [] => (Raise StopIteration, s)
       end.

(** [self._cache.pop(key)] *)
Definition cache_pop (key : K) : Meth V :=
  λ s, match dict_get key (_cache s) with
       | Some v => (Ok v, with_cache (dict_remove key (_cache s)) s)
       | None => (Raise (KeyError key), s)
       end.

(** [self._cache[key]] *)
Definition cache_getitem (key : K) : Meth V :=
  λ s, match dict_get key (_cache s) with
       | Some v => (Ok v, s)
       | None => (Raise (KeyError key), s)
       end.

Definition set (key : K) (value : V) : Meth unit :=
  (absent <- gets (λ s, negb (dict_contains key (_cache s))) ;;
   n <- __len__ ;;
   m <- gets _maxsize ;;
   (if absent && (m <=? n) then
      k <- first_key ;;
      cache_pop k ;;;
      ret tt
    else ret tt) ;;;
   modify (λ s, with_cache (dict_setitem key value (_cache s)) s))%py.

Definition get {D : Type} (key : K) (default : D) : Meth (V + D) :=
  gets (λ s, match dict_get key (_cache s) with
             | Some v => inl v
             | None => inr default
             end).

Definition __getitem__ (key : K) : Meth V :=
  try_except_finally
    (cache_getitem key)
    (modify (λ s, with_misses (misses s + 1) s) ;;;
     raise (KeyError key))%py
    (modify (λ s, with_hits (hits s + 1) s)).

Definition __setitem__ : K → V → Meth unit := set.

Definition __bool__ : Meth bool := gets (λ s, bool_decide (_cache s ≠ [])).

(** The method the source names [__container__]. *)
Definition __container__ (key : K) : Meth bool :=
  gets (λ s, dict_contains key (_cache s)).

End defs.
Arguments dict : clear implicits.
Arguments t : clear implicits.
End FIFOCache.

(** ** The ring of an LRUCache, and its well-formed states *)

Section ring_defs.
Context {K : Type} `{Countable K} {V : Type}.
Import LRUCache.
Implicit Types (st : list (option (link K V))) (l : list addr) (s : LRUCache.t K V).

Definition prevf st (a : addr) : option addr := PREV <$> deref st a.
Definition nextf st (a : addr) : option addr := NEXT <$> deref st a.
Definition keyf st (a : addr) : option K := KEY <$> deref st a.
Definition valf st (a : addr) : option V := VALUE <$> deref st a.

(** The store after [a[0] = x] or [a[1] = x] on a non-empty entry. *)
Definition st_upd (f : link K V → link K V) (a : addr) st : list (option (link K V)) :=
  match deref st a with
  | Some lk => <[a := Some (f lk)]> st
  | None => st
  end.
Definition st_set_prev st (a x : addr) :=
  st_upd (λ lk, Link x (NEXT lk) (KEY lk) (VALUE lk)) a st.
Definition st_set_next st (a x : addr) :=
  st_upd (λ lk, Link (PREV lk) x (KEY lk) (VALUE lk)) a st.

(** [y] follows [x] in [l]. *)
Fixpoint adj l (x y : addr) : Prop :=
  match l with
  | [] => False
  | a :: l' => (x = a ∧ head l' = Some y) ∨ adj l' x y
  end.

(** [y] follows [x] in [l] read as a cycle: the first element follows
    the last. *)
Definition cadj l (x y : addr) : Prop :=
  adj l x y ∨ (last l = Some x ∧ head l = Some y).

(** The entries at [x] and [y] are linked: [x[NEXT] is y], [y[PREV] is x]. *)
Definition edge st (x y : addr) : Prop :=
  nextf st x = Some y ∧ prevf st y = Some x.

(** The entries at the addresses [l], in this order, form a ring. *)
Definition ring_ok st l : Prop :=
  NoDup l ∧ ∀ x y, cadj l x y → edge st x y.

(** The mapping holds exactly the entries of the ring, each under its key. *)
Definition cache_rel (c : gmap K addr) st l : Prop :=
  ∀ k a, c !! k = Some a ↔ a ∈ l ∧ keyf st a = Some k.

(** A well-formed cache whose ring, from the head along [NEXT], is [ring]:
    most recently used first. *)
Record lru_inv s (ring : list addr) : Prop := {
  inv_maxsize : 0 < _maxsize s;
  inv_ring : ring_ok (store s) ring;
  inv_head :
    match ring with
    | [] => deref (store s) (_head s) = None ∧ (_head s < length (store s))%nat
    | a :: _ => a = _head s
    end;
  inv_cache : cache_rel (_cache s) (store s) ring;
  inv_size : size (_cache s) = length ring;
  inv_full : _full s = true → ring ≠ [];
  inv_cap : Z.of_nat (length ring) ≤ _maxsize s
}.

Definition wf s : Prop := ∃ ring, lru_inv s ring.

(** The [set] calls of a list of key-value pairs. *)
Definition set_calls (kvs : list (K * V)) : list (M K (LRUCache.t K V) unit) :=
  (λ kv, LRUCache.set kv.1 kv.2) <$> kvs.

(** A call of a public method other than the assignment to [maxsize],
    its result discarded. [CallGet] passes [None] for the default. *)
Inductive method : Type :=
| CallSet (key : K) (value : V)
| CallGet (key : K)
| CallGetitem (key : K)
| CallContains (key : K)
| CallGrow (n : Z)
| CallClear
| CallLen
| CallBool
| CallKeys.

Definition call (c : method) : M K (LRUCache.t K V) unit :=
  match c with
  | CallSet key value => LRUCache.set key value
  | CallGet key => (LRUCache.get key tt ;;; ret tt)%py
  | CallGetitem key => (LRUCache.__getitem__ key ;;; ret tt)%py
  | CallContains key => (LRUCache.__contains__ key ;;; ret tt)%py
  | CallGrow n => LRUCache.grow n
  | CallClear => LRUCache.clear
  | CallLen => (LRUCache.__len__ ;;; ret tt)%py
  | CallBool => (LRUCache.__bool__ ;;; ret tt)%py
  | CallKeys => (LRUCache.keys ;;; ret tt)%py
  end.

(** The states a cache constructed with a positive [maxsize] can be in:
    after any calls, whether they returned or raised. *)
Inductive reachable : LRUCache.t K V → Prop :=
| reachable_init maxsize : 0 < maxsize → reachable (LRUCache.__init__ maxsize)
| reachable_call s c : reachable s → reachable (call c s).2.

(** A method that leaves [maxsize] alone, whatever it returns or raises. *)
Definition keeps_maxsize {A} (c : M K (LRUCache.t K V) A) : Prop :=
  ∀ s, _maxsize (c s).2 = _maxsize s.

(** The two lookup forms. *)
Definition is_lookup_of (k : K) (c : method) : Prop :=
  c = CallGet k ∨ c = CallGetitem k.
End ring_defs.

Section fifo_defs.
Context {K : Type} `{EqDecision K} {V : Type}.
Definition fifo_set_calls (kvs : list (K * V)) : list (M K (FIFOCache.t K V) unit) :=
  (λ kv, FIFOCache.set kv.1 kv.2) <$> kvs.
End fifo_defs.

(** ** What a cache holds, read from its state *)

(** The states a list of calls leaves one after the other, each call made
    whether the one before returned or raised (the caller catches). *)
Definition exec {K S : Type} (cs : list (M K S unit)) (s : S) : S :=
  foldl (λ s c, (c s).2) s cs.

Section recency_defs.
Context {K : Type} `{Countable K} {V : Type}.
Import LRUCache.

(** The key and value of the entry at [a]. *)
Definition entry_at (st : list (option (link K V))) (a : addr) : option (K * V) :=
  (λ lk, (KEY lk, VALUE lk)) <$> deref st a.

(** The keys and values of the entries at [l], in this order. *)
Definition entries (st : list (option (link K V))) (l : list addr) : list (K * V) :=
  omap (entry_at st) l.

(** The first [n] entries met from [a] along [NEXT]. *)
Fixpoint walk (st : list (option (link K V))) (a : addr) (n : nat) : list (K * V) :=
  match n with
  | O => []
  | S n' =>
    match deref st a with
    | Some lk => (KEY lk, VALUE lk) :: walk st (NEXT lk) n'
    | None => []
    end
  end.

(** The cached pairs from the most to the least recently used: the ring
    read from the head along [NEXT], as many entries as the mapping has
    keys. *)
Definition recency (s : LRUCache.t K V) : list (K * V) :=
  walk (store s) (_head s) (size (_cache s)).

(** A method that never lowers a counter, whatever it returns or raises. *)
Definition counts_up {A} (c : M K (LRUCache.t K V) A) : Prop :=
  ∀ s, hits s ≤ hits (c s).2 ∧ misses s ≤ misses (c s).2.

(** The [get] calls of a list of keys, with [None] for the default. *)
Definition get_calls (ks : list K) : list (M K (LRUCache.t K V) unit) :=
  (λ k, call (V:=V) (CallGet k)) <$> ks.

(** How many of the keys [ks] the mapping [c] holds. *)
Definition count_present (c : gmap K addr) (ks : list K) : nat :=
  length (filter (λ k, is_Some (c !! k)) ks).
End recency_defs.

Section fifo_state_defs.
Context {K : Type} `{EqDecision K} {V : Type}.
Import FIFOCache.

(** A call of a method of FIFOCache, its result discarded. [FCallGet]
    passes [None] for the default. *)
Inductive fifo_method : Type :=
| FCallSet (key : K) (value : V)
| FCallGet (key : K)
| FCallGetitem (key : K)
| FCallContainer (key : K)
| FCallClear
| FCallLen
| FCallBool
| FCallKeys.

Definition fifo_call (c : fifo_method) : M K (FIFOCache.t K V) unit :=
  match c with
  | FCallSet key value => FIFOCache.set key value
  | FCallGet key => (FIFOCache.get key tt ;;; ret tt)%py
  | FCallGetitem key => (FIFOCache.__getitem__ key ;;; ret tt)%py
  | FCallContainer key => (FIFOCache.__container__ key ;;; ret tt)%py
  | FCallClear => FIFOCache.clear
  | FCallLen => (FIFOCache.__len__ ;;; ret tt)%py
  | FCallBool => (FIFOCache.__bool__ ;;; ret tt)%py
  | FCallKeys => (FIFOCache.keys ;;; ret tt)%py
  end.

(** The states of a FIFOCache constructed with a positive [maxsize]. *)
Inductive fifo_reachable : FIFOCache.t K V → Prop :=
| fifo_reachable_init maxsize :
    0 < maxsize → fifo_reachable (FIFOCache.__init__ maxsize)
| fifo_reachable_call s c : fifo_reachable s → fifo_reachable (fifo_call c s).2.

(** The indexed accesses of a list of keys. *)
Definition getitem_calls (ks : list K) : list (M K (FIFOCache.t K V) unit) :=
  (λ k, fifo_call (FCallGetitem k)) <$> ks.

(** How many of the keys [ks] the dict [d] lacks. *)
Definition count_absent (d : dict K V) (ks : list K) : nat :=
  length (filter (λ k, dict_get k d = None) ks).
End fifo_state_defs.

(** ** Every state of an LRUCache *)

Section lru_state_defs.
Context {K : Type} `{Countable K} {V : Type}.
Import LRUCache.

(** The states an LRUCache object can be in: constructed with any
    [maxsize], positive or not, then used in any way: calls of its methods,
    whether they returned or raised, and assignments to [maxsize]. *)
Inductive lru_state : LRUCache.t K V → Prop :=
| lru_state_init maxsize : lru_state (LRUCache.__init__ maxsize)
| lru_state_call s c : lru_state s → lru_state (call c s).2
| lru_state_assign s n : lru_state s → lru_state (LRUCache.set_maxsize n s).2.

(** What all of them have in common, whatever [maxsize] is: the entries
    from the head along [NEXT] form the ring [ring], and the mapping holds
    exactly its entries; or (after an entry was evicted in the [set] that
    inserted it, which takes a [maxsize] below 1) the ring is one entry
    that the mapping, empty, does not hold, and the cache is marked full. *)
Record lru_shape (s : LRUCache.t K V) (ring : list addr) : Prop := {
  shape_ring : ring_ok (store s) ring;
  shape_head :
    match ring with
    | [] => deref (store s) (_head s) = None ∧ (_head s < length (store s))%nat
    | a :: _ => a = _head s
    end;
  shape_cache :
    cache_rel (_cache s) (store s) ring ∨
    (_cache s = ∅ ∧ _full s = true ∧ length ring = 1%nat)
}.

Definition shaped (s : LRUCache.t K V) : Prop := ∃ ring, lru_shape s ring.

End lru_state_defs.

(** ** Example states *)

(** [LRUCache(2)] after [set("a", 1)]. *)
Definition ex_lru_a : LRUCache.t string Z :=
  (call (CallSet "a"%string 1) (LRUCache.__init__ 2)).2.

(** [LRUCache(2)] after [set("a", 1)]; [set("b", 2)]: at capacity. *)
Definition ex_lru_ab : LRUCache.t string Z :=
  (call (CallSet "b"%string 2) ex_lru_a).2.

(** [LRUCache(2)] after [set("a", 1)]; [set("b", 2)]; [maxsize = 1]: it
    holds more keys than its capacity. *)
Definition ex_lru_shrunk : LRUCache.t string Z :=
  (LRUCache.set_maxsize 1 ex_lru_ab).2.

(** [LRUCache(1)] after [set("a", 1)]; [set("b", 2)]: it has been full. *)
Definition ex_lru_full : LRUCache.t string Z :=
  (call (CallSet "b"%string 2)
     (call (CallSet "a"%string 1) (LRUCache.__init__ 1)).2).2.

(** [FIFOCache(2)] after [set("a", 1)]; [set("b", 2)]: at capacity. *)
Definition ex_fifo_ab : FIFOCache.t string Z :=
  (fifo_call (FCallSet "b"%string 2)
     (fifo_call (FCallSet "a"%string 1) (FIFOCache.__init__ 2)).2).2.

(** * Properties *)

(** ** Lists read as cycles *)

Section adj_facts.
Import LRUCache.
Implicit Types (l : list addr) (x y : addr).

Lemma adj_app l1 l2 x y :
  adj (l1 ++ l2) x y ↔
  adj l1 x y ∨ adj l2 x y ∨ (last l1 = Some x ∧ head l2 = Some y).
Proof.
  induction l1 as [|a l1 IH].
  - simpl. split; [auto | intros [[]|[?|[? _]]]; done].
  - change (adj ((a :: l1) ++ l2) x y) with
      ((x = a ∧ head (l1 ++ l2) = Some y) ∨ adj (l1 ++ l2) x y).
    change (adj (a :: l1) x y) with ((x = a ∧ head l1 = Some y) ∨ adj l1 x y).
    rewrite IH. destruct l1 as [|b l1].
    + simpl. split.
      * intros [[-> ?]|[[]|[?|[? _]]]]; auto; done.
      * intros [[[_ ?]|[]]|[?|[[= ->] ?]]]; auto; done.
    + rewrite last_cons_cons. simpl head. tauto.
Qed.

Lemma adj_elem_of l x y : adj l x y → x ∈ l ∧ y ∈ l.
Proof.
  induction l as [|a l IH]; simpl; [done|].
  intros [[-> Hy]|Hadj].
  - split; [left|]. right. apply head_Some in Hy as [l' ->]. left.
  - destruct (IH Hadj). split; by right.
Qed.

Lemma adj_not_head l x y : NoDup l → adj l x y → head l ≠ Some y.
Proof.
  destruct l as [|a l]; simpl; [done|].
  intros Hnd Hadj [= ->]. apply NoDup_cons in Hnd as [Hni _].
  apply Hni. destruct Hadj as [[_ Hy]|Hadj].
  - apply head_Some in Hy as [l' ->]. left.
  - by apply adj_elem_of in Hadj as [_ ?].
Qed.

Lemma adj_not_last l x y : NoDup l → adj l x y → last l ≠ Some x.
Proof.
  induction l as [|a l IH]; simpl; [done|].
  intros [Hni Hnd]%NoDup_cons [[-> Hy]|Hadj].
  - apply head_Some in Hy as [l' ->]. rewrite last_cons_cons.
    intros Hl. apply Hni. by apply last_Some_elem_of.
  - destruct l as [|b l]; [done|]. rewrite last_cons_cons. by apply IH.
Qed.

Lemma cadj_rotate l1 l2 x y : cadj (l1 ++ l2) x y → cadj (l2 ++ l1) x y.
Proof.
  destruct l1 as [|a l1]; [by rewrite app_nil_r|].
  destruct l2 as [|b l2]; [by rewrite app_nil_r|].
  unfold cadj. rewrite !adj_app, !last_app_cons. simpl. tauto.
Qed.

Lemma cadj_elem_of l x y : cadj l x y → x ∈ l ∧ y ∈ l.
Proof.
  intros [Hadj|[Hl Hh]]; [by apply adj_elem_of|].
  split; [by apply last_Some_elem_of|].
  apply head_Some in Hh as [l' ->]. left.
Qed.
End adj_facts.

(** ** The object store *)

Section store_facts.
Context {K : Type} `{Countable K} {V : Type}.
Import LRUCache.
Implicit Types (st : list (option (link K V))) (l : list addr) (a b x y : addr).

Lemma deref_Some_lt st a lk : deref st a = Some lk → (a < length st)%nat.
Proof.
  unfold deref. destruct (st !! a) eqn:E; [|done].
  intros _. by eapply lookup_lt_Some.
Qed.

Lemma deref_insert st a c b :
  (a < length st)%nat →
  deref (<[a := c]> st) b = if decide (b = a) then c else deref st b.
Proof.
  intros Hlt. unfold deref. case_decide as Hab.
  - subst. by rewrite list_lookup_insert_eq.
  - by rewrite list_lookup_insert_ne.
Qed.

Lemma deref_snoc st c b :
  deref (st ++ [c]) b = if decide (b = length st) then c else deref st b.
Proof.
  unfold deref. case_decide as Hb.
  - subst. by rewrite lookup_app_r, Nat.sub_diag.
  - destruct (decide (b < length st)%nat).
    + by rewrite lookup_app_l.
    + rewrite !(lookup_ge_None_2 _ b); [done|lia|].
      rewrite length_app. simpl. lia.
Qed.

Lemma deref_upd st f a b lk :
  deref st a = Some lk →
  deref (st_upd f a st) b = if decide (b = a) then Some (f lk) else deref st b.
Proof.
  intros Ha. unfold st_upd. rewrite Ha.
  apply deref_insert. by eapply deref_Some_lt.
Qed.

Lemma deref_upd_ne st f a b : b ≠ a → deref (st_upd f a st) b = deref st b.
Proof.
  intros Hne. unfold st_upd. destruct (deref st a) eqn:Ha; [|done].
  rewrite deref_insert by (by eapply deref_Some_lt). by rewrite decide_False.
Qed.

(** Any field that [f] keeps is kept by the update. *)
Lemma field_upd_keep {A} (g : link K V → A) f st a b :
  (∀ lk, g (f lk) = g lk) →
  g <$> deref (st_upd f a st) b = g <$> deref st b.
Proof.
  intros Hg. destruct (decide (b = a)) as [->|Hne].
  - destruct (deref st a) as [lk|] eqn:Ha.
    + rewrite (deref_upd _ _ _ _ lk), decide_True by done. simpl. by rewrite Hg.
    + unfold st_upd. rewrite Ha. by rewrite Ha.
  - by rewrite deref_upd_ne.
Qed.

Lemma prevf_set_next st a x b : prevf (st_set_next st a x) b = prevf st b.
Proof. by apply field_upd_keep. Qed.
Lemma keyf_set_next st a x b : keyf (st_set_next st a x) b = keyf st b.
Proof. by apply field_upd_keep. Qed.
Lemma valf_set_next st a x b : valf (st_set_next st a x) b = valf st b.
Proof. by apply field_upd_keep. Qed.
Lemma nextf_set_prev st a x b : nextf (st_set_prev st a x) b = nextf st b.
Proof. by apply field_upd_keep. Qed.
Lemma keyf_set_prev st a x b : keyf (st_set_prev st a x) b = keyf st b.
Proof. by apply field_upd_keep. Qed.
Lemma valf_set_prev st a x b : valf (st_set_prev st a x) b = valf st b.
Proof. by apply field_upd_keep. Qed.

Lemma entry_at_set_next st a x b : entry_at (st_set_next st a x) b = entry_at st b.
Proof. by apply (field_upd_keep (λ lk, (KEY lk, VALUE lk))). Qed.
Lemma entry_at_set_prev st a x b : entry_at (st_set_prev st a x) b = entry_at st b.
Proof. by apply (field_upd_keep (λ lk, (KEY lk, VALUE lk))). Qed.

Lemma entry_at_keyf st st' a :
  entry_at st' a = entry_at st a → keyf st' a = keyf st a.
Proof.
  unfold entry_at, keyf.
  destruct (deref st' a), (deref st a); simpl; congruence.
Qed.

Lemma nextf_set_next_ne st a x b : b ≠ a → nextf (st_set_next st a x) b = nextf st b.
Proof. intros. unfold nextf, st_set_next. by rewrite deref_upd_ne. Qed.
Lemma prevf_set_prev_ne st a x b : b ≠ a → prevf (st_set_prev st a x) b = prevf st b.
Proof. intros. unfold prevf, st_set_prev. by rewrite deref_upd_ne. Qed.

Lemma nextf_set_next_eq st a x :
  is_Some (deref st a) → nextf (st_set_next st a x) a = Some x.
Proof.
  intros [lk Ha]. unfold nextf, st_set_next.
  by rewrite (deref_upd _ _ _ _ lk), decide_True.
Qed.
Lemma prevf_set_prev_eq st a x :
  is_Some (deref st a) → prevf (st_set_prev st a x) a = Some x.
Proof.
  intros [lk Ha]. unfold prevf, st_set_prev.
  by rewrite (deref_upd _ _ _ _ lk), decide_True.
Qed.

Lemma is_Some_deref_upd st f a b :
  is_Some (deref (st_upd f a st) b) ↔ is_Some (deref st b).
Proof.
  destruct (decide (b = a)) as [->|Hne]; [|by rewrite deref_upd_ne].
  destruct (deref st a) as [lk|] eqn:Ha.
  - rewrite (deref_upd _ _ _ _ lk), decide_True by done. split; eauto.
  - unfold st_upd. rewrite Ha. by rewrite Ha.
Qed.
End store_facts.

(** ** Rings in the store *)

Section ring_facts.
Context {K : Type} `{Countable K} {V : Type}.
Import LRUCache.
Implicit Types (st : list (option (link K V))) (l m : list addr) (a b x y : addr).

Lemma cadj_succ l x : x ∈ l → ∃ y, cadj l x y.
Proof.
  intros (l1 & l2 & ->)%list_elem_of_split.
  assert (∃ y, cadj ((x :: l2) ++ l1) x y) as [y Hy].
  { destruct (l2 ++ l1) as [|b r] eqn:E.
    - apply app_eq_nil in E as [-> ->]. exists x. by right.
    - exists b. left. simpl. rewrite E. by left. }
  exists y. by apply cadj_rotate.
Qed.

Lemma ring_ok_live st l x : ring_ok st l → x ∈ l → is_Some (deref st x).
Proof.
  intros [_ Hedge] [y Hy]%cadj_succ. destruct (Hedge _ _ Hy) as [Hn _].
  unfold nextf in Hn. by apply fmap_is_Some with (f := NEXT); rewrite Hn.
Qed.

Lemma ring_ok_frame st st' l :
  ring_ok st l → (∀ x, x ∈ l → deref st' x = deref st x) → ring_ok st' l.
Proof.
  intros [Hnd Hedge] Hsame. split; [done|].
  intros x y Hxy. destruct (cadj_elem_of _ _ _ Hxy) as [Hx Hy].
  destruct (Hedge _ _ Hxy) as [Hn Hp]. unfold edge, nextf, prevf in *.
  by rewrite !Hsame.
Qed.

Lemma ring_ok_rotate st l1 l2 : ring_ok st (l1 ++ l2) → ring_ok st (l2 ++ l1).
Proof.
  intros [Hnd Hedge]. split.
  - by rewrite (Permutation_app_comm l2 l1).
  - intros x y Hxy. by apply Hedge, cadj_rotate.
Qed.

Lemma ring_ok_nil st : ring_ok st [].
Proof. split; [constructor|]. by intros x y [[]|[? _]]. Qed.

Lemma ring_ok_singleton st a :
  nextf st a = Some a → prevf st a = Some a → ring_ok st [a].
Proof.
  intros Hn Hp. split; [apply NoDup_singleton|].
  intros x y [[[_ ?]|[]]|[[= <-] [= <-]]]; done.
Qed.

Lemma ring_prev_head st a m : ring_ok st (a :: m) → prevf st a = last (a :: m).
Proof.
  intros [_ Hedge]. destruct (last (a :: m)) as [z|] eqn:Hl.
  - apply (Hedge z a). by right.
  - by apply last_None in Hl.
Qed.

Lemma ring_next_head st a b m : ring_ok st (a :: b :: m) → nextf st a = Some b.
Proof. intros [_ Hedge]. apply (Hedge a b). left. by left. Qed.

(** Taking the first entry [a] out of the ring [a :: m]: its neighbours
    [pp] and [nn] are linked to each other. *)
Lemma ring_unlink st a m pp nn :
  ring_ok st (a :: m) → last m = Some pp → head m = Some nn →
  ring_ok (st_set_prev (st_set_next st pp nn) nn pp) m.
Proof.
  intros Hring Hpp Hnn. pose proof Hring as [[Ha Hnd]%NoDup_cons Hedge].
  assert (is_Some (deref st pp)) as Hlpp.
  { eapply ring_ok_live; [done|]. right. by apply last_Some_elem_of. }
  assert (is_Some (deref st nn)) as Hlnn.
  { eapply ring_ok_live; [done|]. right.
    apply head_Some in Hnn as [? ->]. left. }
  split; [done|]. intros x y [Hadj|[Hl Hh]].
  - destruct (Hedge x y) as [Hn Hp]; [left; by right|].
    split.
    + rewrite nextf_set_prev, nextf_set_next_ne; [done|].
      intros ->. by eapply adj_not_last.
    + rewrite prevf_set_prev_ne, prevf_set_next; [done|].
      intros ->. by eapply adj_not_head.
  - rewrite Hpp in Hl. rewrite Hnn in Hh. simplify_eq. split.
    + by rewrite nextf_set_prev, nextf_set_next_eq.
    + rewrite prevf_set_prev_eq; [done|]. by apply is_Some_deref_upd.
Qed.

(** Putting the entry [a], whose own fields already point at the last
    and first entries of the ring [m], in front of it. *)
Lemma ring_insert_front st a m hd lst :
  ring_ok st m → head m = Some hd → last m = Some lst → a ∉ m →
  prevf st a = Some lst → nextf st a = Some hd →
  ring_ok (st_set_prev (st_set_next st lst a) hd a) (a :: m).
Proof.
  intros Hring Hhd Hlst Ha Hpa Hna. pose proof Hring as [Hnd Hedge].
  assert (hd ∈ m) as Hhm by (apply head_Some in Hhd as [? ->]; left).
  assert (lst ∈ m) as Hlm by (by apply last_Some_elem_of).
  assert (is_Some (deref st lst)) as Hllst by (by eapply ring_ok_live).
  assert (is_Some (deref st hd)) as Hlhd by (by eapply ring_ok_live).
  split; [by apply NoDup_cons|].
  intros x y [[[-> Hy]|Hadj]|[Hl Hh]].
  - rewrite Hhd in Hy. simplify_eq. split.
    + rewrite nextf_set_prev, nextf_set_next_ne; [done|]. by intros ->.
    + rewrite prevf_set_prev_eq; [done|]. by apply is_Some_deref_upd.
  - destruct (Hedge x y) as [Hn Hp]; [by left|]. split.
    + rewrite nextf_set_prev, nextf_set_next_ne; [done|].
      intros ->. by eapply adj_not_last.
    + rewrite prevf_set_prev_ne, prevf_set_next; [done|].
      intros ->. by eapply adj_not_head.
  - simpl in Hh. simplify_eq.
    assert (x = lst) as ->.
    { destruct m as [|b m]; [done|]. rewrite last_cons_cons in Hl. congruence. }
    split.
    + by rewrite nextf_set_prev, nextf_set_next_eq.
    + rewrite prevf_set_prev_ne, prevf_set_next; [done|]. by intros ->.
Qed.
End ring_facts.

(** ** Stepping through a method body *)

Section steps.
Context {K S : Type}.

Lemma bind_ok {A B} (c : M K S A) (f : A → M K S B) s a s' :
  c s = (Ok a, s') → bind c f s = f a s'.
Proof. unfold bind. by intros ->. Qed.

Lemma bind_raise {A B} (c : M K S A) (f : A → M K S B) s e s' :
  c s = (Raise e, s') → bind c f s = (Raise e, s').
Proof. unfold bind. by intros ->. Qed.

Lemma bind_ret {A B} (a : A) (f : A → M K S B) s : bind (ret a) f s = f a s.
Proof. done. Qed.

Lemma bind_gets {A B} (g : S → A) (f : A → M K S B) s :
  bind (gets g) f s = f (g s) s.
Proof. done. Qed.

Lemma bind_modify {B} (g : S → S) (f : unit → M K S B) s :
  bind (modify g) f s = f tt (g s).
Proof. done. Qed.

Lemma bind_bind {A B C} (c : M K S A) (f : A → M K S B) (g : B → M K S C) s :
  bind (bind c f) g s = bind c (λ a, bind (f a) g) s.
Proof. unfold bind. by destruct (c s) as [[a|e] s']. Qed.

Lemma run_all_app (cs1 cs2 : list (M K S unit)) s s' :
  run_all cs1 s = (Ok tt, s') → run_all (cs1 ++ cs2) s = run_all cs2 s'.
Proof.
  revert s. induction cs1 as [|c cs1 IH]; intros s; simpl.
  - by intros [= ->].
  - unfold bind. destruct (c s) as [[[]|e] s1]; [apply IH|done].
Qed.

Lemma exec_cons (c : M K S unit) (cs : list (M K S unit)) (s : S) :
  exec (c :: cs) s = exec cs (c s).2.
Proof. done. Qed.

(** Calls that all return leave the same state either way. *)
Lemma run_all_exec (cs : list (M K S unit)) s s' :
  run_all cs s = (Ok tt, s') → exec cs s = s'.
Proof.
  revert s. induction cs as [|c cs IH]; intros s.
  - simpl. by intros [= ->].
  - rewrite exec_cons. cbn [run_all]. unfold bind.
    destruct (c s) as [[[]|e] s1]; [apply IH|done].
Qed.
End steps.

Section lru_steps.
Context {K : Type} `{Countable K} {V : Type}.
Import LRUCache.
Implicit Types (s : LRUCache.t K V) (a x : addr).

Lemma item0_ok s a p : prevf (store s) a = Some p → item0 a s = (Ok p, s).
Proof.
  unfold prevf, item0, getitem_field.
  destruct (deref (store s) a); simpl; [by intros [= ->]|done].
Qed.
Lemma item1_ok s a n : nextf (store s) a = Some n → item1 a s = (Ok n, s).
Proof.
  unfold nextf, item1, getitem_field.
  destruct (deref (store s) a); simpl; [by intros [= ->]|done].
Qed.
Lemma item2_ok s a k : keyf (store s) a = Some k → item2 a s = (Ok k, s).
Proof.
  unfold keyf, item2, getitem_field.
  destruct (deref (store s) a); simpl; [by intros [= ->]|done].
Qed.
Lemma item3_ok s a v : valf (store s) a = Some v → item3 a s = (Ok v, s).
Proof.
  unfold valf, item3, getitem_field.
  destruct (deref (store s) a); simpl; [by intros [= ->]|done].
Qed.

Lemma setitem0_ok s a x :
  is_Some (deref (store s) a) →
  setitem0 a x s = (Ok tt, with_store (st_set_prev (store s) a x) s).
Proof.
  intros [lk Ha]. unfold setitem0, setitem_with, st_set_prev, st_upd.
  by rewrite Ha.
Qed.
Lemma setitem1_ok s a x :
  is_Some (deref (store s) a) →
  setitem1 a x s = (Ok tt, with_store (st_set_next (store s) a x) s).
Proof.
  intros [lk Ha]. unfold setitem1, setitem_with, st_set_next, st_upd.
  by rewrite Ha.
Qed.

Lemma prevf_is_Some st a p : prevf (V:=V) (K:=K) st a = Some p → is_Some (deref st a).
Proof. unfold prevf. destruct (deref st a); [eauto|done]. Qed.
End lru_steps.

(** ** The mapping and the ring *)

Section cache_rel_facts.
Context {K : Type} `{Countable K} {V : Type}.
Import LRUCache.
Implicit Types (st : list (option (link K V))) (l : list addr) (c : gmap K addr).

Lemma cache_rel_insert c st st' l key a :
  cache_rel c st l → c !! key = None → a ∉ l →
  (∀ x, x ∈ l → keyf st' x = keyf st x) → keyf st' a = Some key →
  cache_rel (<[key := a]> c) st' (a :: l).
Proof.
  intros Hc Hkey Ha Hsame Hka k b. rewrite lookup_insert_Some, elem_of_cons. split.
  - intros [[<- <-]|[Hne Hl]]; [auto|].
    apply Hc in Hl as [Hb Hkb]. rewrite Hsame by done. auto.
  - intros [[->|Hb] Hkb].
    + left. split; congruence.
    + right. rewrite Hsame in Hkb by done.
      assert (c !! k = Some b) as Hl by (apply Hc; auto).
      split; [congruence|done].
Qed.

Lemma cache_rel_delete c st st' l l' k a :
  cache_rel c st l → NoDup (a :: l') → l ≡ₚ a :: l' →
  keyf st a = Some k → (∀ x, keyf st' x = keyf st x) →
  cache_rel (delete k c) st' l'.
Proof.
  intros Hc [Ha _]%NoDup_cons Hperm Hka Hsame k' b.
  rewrite lookup_delete_Some, Hsame. split.
  - intros [Hne Hl]. apply Hc in Hl as [Hb Hkb]. split; [|done].
    rewrite Hperm in Hb. apply elem_of_cons in Hb as [->|Hb]; [congruence|done].
  - intros [Hb Hkb].
    assert (c !! k' = Some b) as Hl.
    { apply Hc. split; [|done]. rewrite Hperm. by right. }
    split; [|done]. intros <-.
    assert (c !! k = Some a) as Hl'.
    { apply Hc. split; [|done]. rewrite Hperm. left. }
    congruence.
Qed.

Lemma cache_rel_perm c st st' l l' :
  cache_rel c st l → l ≡ₚ l' → (∀ x, keyf st' x = keyf st x) →
  cache_rel c st' l'.
Proof.
  intros Hc Hperm Hsame k a. rewrite Hsame, <-Hperm. apply Hc.
Qed.
End cache_rel_facts.

(** Reduces the attribute reads and writes of a state given by its fields. *)
Ltac lru_proj :=
  cbn [LRUCache._maxsize LRUCache._cache LRUCache._full LRUCache._head
       LRUCache.hits LRUCache.misses LRUCache.store
       LRUCache.with_maxsize LRUCache.with_cache LRUCache.with_full
       LRUCache.with_head LRUCache.with_hits LRUCache.with_misses
       LRUCache.with_store] in *.

(** ** [set] and the promotion of [get] keep a cache well-formed *)

Section set_inv.
Context {K : Type} `{Countable K} {V : Type}.
Import LRUCache.
Implicit Types (s : LRUCache.t K V) (a x : addr).

(** The first entry: the empty list that is the head becomes the entry,
    linked to itself. *)
Lemma set_absent_empty_ring s key value :
  lru_inv s [] → _cache s !! key = None →
  ∃ s', LRUCache.set key value s = (Ok tt, s') ∧ lru_inv s' [_head s] ∧
    (entry_at (store s') (_head s) = Some (key, value) ∧ _full s' = false) ∧
    _maxsize s' = _maxsize s ∧ hits s' = hits s ∧ misses s' = misses s.
Proof.
  intros [Hm Hring [Hh Hlt] Hc Hsz Hf Hcap] Hk.
  destruct s as [m c f h hi mi st]. lru_proj.
  unfold LRUCache.set. rewrite bind_gets. lru_proj. rewrite Hk, bind_gets.
  unfold truthy. rewrite bind_gets. lru_proj. rewrite Hh.
  rewrite bool_decide_eq_false_2 by (intros ?; done).
  cbn [negb]. unfold slice_assign. rewrite bind_modify.
  rewrite bind_gets, bind_modify, bind_gets.
  unfold __len__. rewrite !bind_gets. lru_proj.
  rewrite map_size_insert_None, Hsz by done.
  destruct f; [by destruct Hf|].
  rewrite (proj2 (Z.ltb_ge _ _)) by (simpl; lia). simpl orb. cbv iota.
  eexists. split; [reflexivity|].
  set (st' := <[h := _]> st).
  assert (deref st' h = Some (Link h h key value)) as Hd.
  { unfold st'. by rewrite deref_insert, decide_True. }
  split; [|lru_proj; split_and!; try done; unfold entry_at; by rewrite Hd].
  split; lru_proj; try done.
  - apply ring_ok_singleton; unfold nextf, prevf; by rewrite Hd.
  - intros k a. rewrite list_elem_of_singleton. split.
    + intros [[<- <-]|[Hne Hl]]%lookup_insert_Some.
      * split; [done|]. unfold keyf. by rewrite Hd.
      * apply Hc in Hl as [Hl _]. by apply elem_of_nil in Hl.
    + intros [-> Hkey]. unfold keyf in Hkey. rewrite Hd in Hkey.
      simpl in Hkey. simplify_eq. apply lookup_insert_eq.
  - by rewrite map_size_insert_None, Hsz.
  - simpl. lia.
Qed.

Lemma set_absent_empty s key value :
  lru_inv s [] → _cache s !! key = None →
  ∃ s', LRUCache.set key value s = (Ok tt, s') ∧ lru_inv s' [_head s] ∧
    _maxsize s' = _maxsize s ∧ hits s' = hits s ∧ misses s' = misses s.
Proof.
  intros Hinv Hk.
  destruct (set_absent_empty_ring s key value Hinv Hk) as (s' & ? & ? & _ & ?).
  by exists s'.
Qed.

(** A further entry, on the store alone: a new list object goes in front of
    the ring, and when the cache is or has been full the last entry of the
    ring is taken out and its key deleted from the mapping, which raises
    [KeyError] when the mapping does not have it. *)
Lemma set_absent_nonempty_heap s h m0 key value :
  ring_ok (store s) (h :: m0) → _head s = h → _cache s !! key = None →
  ∃ st',
    entry_at st' (length (store s)) = Some (key, value) ∧
    (∀ x, x ∈ h :: m0 → entry_at st' x = entry_at (store s) x) ∧
    if _full s || (_maxsize s <? Z.of_nat (S (size (_cache s))))
    then ∃ front lst kl,
      h :: m0 = front ++ [lst] ∧ keyf (store s) lst = Some kl ∧
      ring_ok st' (length (store s) :: front) ∧
      LRUCache.set key value s =
        match <[key := length (store s)]> (_cache s) !! kl with
        | Some _ =>
          (Ok tt, Build (_maxsize s)
                    (delete kl (<[key := length (store s)]> (_cache s)))
                    true (length (store s)) (hits s) (misses s) st')
        | None =>
          (Raise (KeyError kl),
           Build (_maxsize s) (<[key := length (store s)]> (_cache s))
             true (length (store s)) (hits s) (misses s) st')
        end
    else
      ring_ok st' (length (store s) :: h :: m0) ∧
      LRUCache.set key value s =
        (Ok tt, Build (_maxsize s) (<[key := length (store s)]> (_cache s))
                  false (length (store s)) (hits s) (misses s) st').
Proof.
  intros Hring Hh Hk.
  destruct s as [m c f h' hi mi st]. lru_proj. subst h'.
  set (ring := h :: m0) in *.
  destruct (last ring) as [lst|] eqn:Hlst; [|by apply last_None in Hlst].
  assert (lst ∈ ring) as Hlst_in by (by apply last_Some_elem_of).
  assert (h ∈ ring) as Hh_in by left.
  assert (prevf st h = Some lst) as Hph.
  { rewrite <-Hlst. by apply ring_prev_head. }
  assert (∀ x, x ∈ ring → (x < length st)%nat) as Hlive.
  { intros x Hx. destruct (ring_ok_live _ _ _ Hring Hx) as [lk Hlk].
    by eapply deref_Some_lt. }
  set (new := length st).
  set (st1 := st ++ [Some (Link lst h key value)]).
  assert (∀ x, x ∈ ring → deref st1 x = deref st x) as Hst1.
  { intros x Hx%Hlive. unfold st1. rewrite deref_snoc, decide_False; [done|lia]. }
  assert (deref st1 new = Some (Link lst h key value)) as Hnew.
  { unfold st1. by rewrite deref_snoc, decide_True. }
  assert (new ∉ ring) as Hnew_ni.
  { intros Hx%Hlive. unfold new in Hx. lia. }
  set (st2 := st_set_next st1 lst new).
  set (st3 := st_set_prev st2 h new).
  assert (ring_ok st3 (new :: ring)) as Hring3.
  { apply ring_insert_front; try done.
    - by eapply ring_ok_frame.
    - unfold prevf. by rewrite Hnew.
    - unfold nextf. by rewrite Hnew. }
  assert (entry_at st3 new = Some (key, value)) as Hent_new.
  { unfold st3, st2. rewrite entry_at_set_prev, entry_at_set_next.
    unfold entry_at. by rewrite Hnew. }
  assert (∀ x, x ∈ ring → entry_at st3 x = entry_at st x) as Hent_old.
  { intros x Hx. unfold st3, st2. rewrite entry_at_set_prev, entry_at_set_next.
    unfold entry_at. by rewrite Hst1. }
  (* the insertion *)
  unfold LRUCache.set. rewrite bind_gets. lru_proj. rewrite Hk, bind_gets.
  unfold truthy. rewrite bind_gets. lru_proj.
  rewrite bool_decide_eq_true_2.
  2:{ apply prevf_is_Some in Hph as [? ->]. done. }
  cbn [negb]. rewrite !bind_bind.
  erewrite bind_ok by (apply item0_ok; exact Hph).
  rewrite bind_bind. erewrite bind_ok by (unfold new_list; reflexivity).
  lru_proj. fold new st1. rewrite bind_bind, bind_modify.
  assert (prevf st1 h = Some lst) as Hph1.
  { unfold prevf. by rewrite Hst1. }
  rewrite !bind_bind.
  erewrite bind_ok by (apply item0_ok; lru_proj; exact Hph1).
  rewrite bind_bind.
  erewrite bind_ok.
  2:{ apply setitem1_ok. lru_proj. rewrite Hst1 by done. by eapply ring_ok_live. }
  erewrite bind_ok.
  2:{ apply setitem0_ok. lru_proj. apply is_Some_deref_upd. rewrite Hst1 by done.
      by eapply ring_ok_live. }
  lru_proj. fold st2 st3.
  rewrite bind_gets, bind_modify, bind_gets. unfold __len__. rewrite !bind_gets.
  lru_proj. rewrite map_size_insert_None by done.
  destruct (f || (m <? Z.of_nat (S (size c)))) eqn:Hev.
  2:{ (* no eviction *)
    apply orb_false_iff in Hev as [-> Hlt%Z.ltb_ge].
    exists st3. by split_and!. }
  (* eviction *)
  destruct (last_Some ring lst) as [[front Hfront] _]; [done|].
  set (ring1 := new :: front).
  assert (ring_ok st3 (lst :: ring1)) as Hrot.
  { apply (ring_ok_rotate _ ring1 [lst]). unfold ring1. simpl. by rewrite <-Hfront. }
  destruct (last ring1) as [pp|] eqn:Hpp; [|by apply last_None in Hpp].
  assert (prevf st3 new = Some lst) as Hpn.
  { rewrite (ring_prev_head _ _ _ Hring3). by rewrite last_cons, Hlst. }
  assert (prevf st3 lst = Some pp) as Hpl.
  { rewrite (ring_prev_head _ _ _ Hrot). by rewrite last_cons, Hpp. }
  set (st4 := st_set_next st3 pp new). set (st5 := st_set_prev st4 new pp).
  assert (ring_ok st5 ring1) as Hring5.
  { by apply (ring_unlink st3 lst). }
  assert (is_Some (deref st3 lst)) as Hllst by (by eapply prevf_is_Some).
  destruct (keyf st3 lst) as [kl|] eqn:Hkl.
  2:{ unfold keyf in Hkl. destruct Hllst as [? Hl]. by rewrite Hl in Hkl. }
  rewrite bind_modify, bind_gets. lru_proj.
  erewrite bind_ok by (apply item0_ok; lru_proj; exact Hpn).
  erewrite bind_ok by (apply item0_ok; lru_proj; exact Hpl).
  erewrite bind_ok.
  2:{ apply setitem1_ok. lru_proj. eapply ring_ok_live; [exact Hrot|].
      right. by apply last_Some_elem_of. }
  erewrite bind_ok.
  2:{ apply item0_ok. lru_proj. rewrite prevf_set_next. exact Hpl. }
  erewrite bind_ok.
  2:{ apply setitem0_ok. lru_proj. apply is_Some_deref_upd.
      by eapply prevf_is_Some. }
  erewrite bind_ok.
  2:{ apply item2_ok. lru_proj. rewrite keyf_set_prev, keyf_set_next. exact Hkl. }
  unfold cache_delitem. lru_proj.
  exists st5. split_and!.
  - unfold st5, st4. by rewrite entry_at_set_prev, entry_at_set_next.
  - intros x Hx. unfold st5, st4. rewrite entry_at_set_prev, entry_at_set_next.
    by apply Hent_old.
  - exists front, lst, kl. split_and!; try done.
    rewrite <-Hkl. unfold st3, st2. rewrite keyf_set_prev, keyf_set_next.
      unfold keyf. by rewrite Hst1.
Qed.

(** A further entry, in a well-formed cache. *)
Lemma set_absent_nonempty_ring s h m0 key value :
  lru_inv s (h :: m0) → _cache s !! key = None →
  ∃ s' ring',
    LRUCache.set key value s = (Ok tt, s') ∧
    lru_inv s' (length (store s) :: ring') ∧
    (if _full s || (_maxsize s <? Z.of_nat (S (size (_cache s))))
     then (∃ lst, h :: m0 = ring' ++ [lst]) ∧ _full s' = true
     else ring' = h :: m0 ∧ _full s' = false) ∧
    entry_at (store s') (length (store s)) = Some (key, value) ∧
    (∀ x, x ∈ h :: m0 → entry_at (store s') x = entry_at (store s) x) ∧
    _maxsize s' = _maxsize s ∧ hits s' = hits s ∧ misses s' = misses s.
Proof.
  intros Hinv Hk. pose proof Hinv as [Hm Hring Hh Hc Hsz Hf Hcap].
  destruct (set_absent_nonempty_heap s h m0 key value Hring (eq_sym Hh) Hk)
    as (st' & Hent_new & Hent_old & Hcase).
  set (new := length (store s)) in *.
  assert (new ∉ h :: m0) as Hnew_ni.
  { intros Hx. destruct (ring_ok_live _ _ _ Hring Hx) as [lk Hlk].
    apply deref_Some_lt in Hlk. unfold new in Hlk. lia. }
  assert (cache_rel (<[key := new]> (_cache s)) st' (new :: h :: m0)) as Hc1.
  { apply cache_rel_insert with (st := store s); try done.
    - intros x Hx. by apply entry_at_keyf, Hent_old.
    - unfold entry_at in Hent_new. unfold keyf.
      destruct (deref st' new); simpl in *; congruence. }
  destruct (_full s || _) eqn:Hev.
  - destruct Hcase as (front & lst & kl & Hfront & Hkl & Hring' & Hset).
    assert (<[key := new]> (_cache s) !! kl = Some lst) as Hlk.
    { apply Hc1. split; [right; rewrite Hfront; apply elem_of_app; right; left|].
      rewrite <-Hkl. apply entry_at_keyf, Hent_old.
      rewrite Hfront. apply elem_of_app. right. left. }
    rewrite Hlk in Hset.
    eexists _, front. split; [exact Hset|]. split.
    2:{ simpl. split_and!; try done. by exists lst. }
    split; simpl; try done.
    + apply cache_rel_delete with (st := st') (l := new :: h :: m0) (a := lst);
        try done.
      * apply NoDup_cons. split.
        -- intros Hx. destruct Hring as [Hnd _]. rewrite Hfront in Hnd.
           apply NoDup_app in Hnd as (_ & Hdisj & _).
           apply elem_of_cons in Hx as [->|Hx].
           ++ apply Hnew_ni. rewrite Hfront. apply elem_of_app. right. left.
           ++ apply (Hdisj lst Hx). left.
        -- apply Hring'.
      * rewrite Hfront.
        by rewrite (Permutation_app_comm front [lst]), Permutation_swap.
      * rewrite <-Hkl. apply entry_at_keyf, Hent_old.
        rewrite Hfront. apply elem_of_app. right. left.
    + rewrite map_size_delete_Some, map_size_insert_None by done.
      rewrite Hsz, Hfront, length_app. simpl. lia.
    + revert Hcap. rewrite Hfront, length_app. simpl. lia.
  - destruct Hcase as [Hring' Hset].
    apply orb_false_iff in Hev as [Hfull Hlt%Z.ltb_ge].
    eexists _, (h :: m0). split; [exact Hset|]. split; [|done].
    split; simpl; try done.
    + by rewrite map_size_insert_None, Hsz.
    + rewrite Hsz in Hlt. simpl length in *. lia.
Qed.

Lemma set_absent_nonempty s h m0 key value :
  lru_inv s (h :: m0) → _cache s !! key = None →
  ∃ s' ring', LRUCache.set key value s = (Ok tt, s') ∧ lru_inv s' ring' ∧
    _maxsize s' = _maxsize s ∧ hits s' = hits s ∧ misses s' = misses s.
Proof.
  intros Hinv Hk.
  destruct (set_absent_nonempty_ring s h m0 key value Hinv Hk)
    as (s' & ring' & ? & ? & _ & _ & _ & ?).
  by eexists s', _.
Qed.

(** The relinking of a lookup, on the store alone: the entry [link] leaves
    its place in the ring and becomes the head; no key or value changes. *)
Lemma promote_heap s h m1 link m2 :
  ring_ok (store s) (h :: m1 ++ link :: m2) → _head s = h →
  ∃ st', promote link s = (Ok tt, with_store st' (with_head link s)) ∧
    ring_ok st' (link :: h :: m1 ++ m2) ∧
    valf st' link = valf (store s) link ∧
    (∀ x, entry_at st' x = entry_at (store s) x) ∧
    (∀ x, keyf st' x = keyf (store s) x).
Proof.
  intros Hring Hh.
  destruct s as [m c f h' hi mi st]. lru_proj. subst h'.
  set (rest := m2 ++ h :: m1).
  assert (ring_ok st (link :: rest)) as Hrot.
  { by apply (ring_ok_rotate _ (h :: m1) (link :: m2)). }
  pose proof Hrot as [[Hlink_ni Hnd_rest]%NoDup_cons _].
  destruct (last rest) as [p|] eqn:Hp.
  2:{ apply last_None in Hp. by destruct m2. }
  destruct (head rest) as [n|] eqn:Hn.
  2:{ apply head_None in Hn. by destruct m2. }
  assert (p ∈ rest) as Hp_in by (by apply last_Some_elem_of).
  assert (n ∈ rest) as Hn_in by (apply head_Some in Hn as [? ->]; left).
  assert (prevf st link = Some p) as Hpl.
  { rewrite (ring_prev_head _ _ _ Hrot). by rewrite last_cons, Hp. }
  assert (nextf st link = Some n) as Hnl.
  { apply head_Some in Hn as [r Hr]. rewrite Hr in Hrot.
    by apply ring_next_head in Hrot. }
  assert (link ≠ h) as Hne.
  { intros ->. apply Hlink_ni, elem_of_app. right. left. }
  set (st1 := st_set_next st p n). set (st2 := st_set_prev st1 n p).
  set (ring2 := h :: m1 ++ m2).
  assert (ring_ok st2 ring2) as Hring2.
  { apply (ring_ok_rotate _ m2 (h :: m1)). by apply (ring_unlink st link). }
  assert (link ∉ ring2) as Hlink_ni2.
  { intros Hx. apply Hlink_ni. unfold rest.
    by rewrite (Permutation_app_comm m2 (h :: m1)). }
  destruct (last ring2) as [lst2|] eqn:Hlst2; [|by apply last_None in Hlst2].
  assert (prevf st2 h = Some lst2) as Hph2.
  { rewrite <-Hlst2. by apply ring_prev_head. }
  set (st3 := st_set_prev st2 link lst2). set (st4 := st_set_next st3 link h).
  set (st5 := st_set_next st4 lst2 link). set (st6 := st_set_prev st5 h link).
  assert (is_Some (deref st link)) as Hl_link by (by eapply prevf_is_Some).
  assert (is_Some (deref st2 link)) as Hl_link2 by (by do 2 apply is_Some_deref_upd).
  assert (ring_ok st4 ring2) as Hring4.
  { eapply ring_ok_frame; [exact Hring2|]. intros x Hx.
    unfold st4, st3, st_set_next, st_set_prev.
    rewrite !deref_upd_ne; [done|by intros ->..]. }
  assert (ring_ok st6 (link :: ring2)) as Hring6.
  { apply ring_insert_front; try done.
    - unfold st4. rewrite prevf_set_next. by apply prevf_set_prev_eq.
    - apply nextf_set_next_eq. by apply is_Some_deref_upd. }
  exists st6. split; [|split; [|split; [|split]]].
  - unfold promote. rewrite bind_gets. lru_proj.
    rewrite bool_decide_eq_true_2 by done.
    erewrite bind_ok by (apply item1_ok; lru_proj; exact Hnl).
    erewrite bind_ok by (apply item0_ok; lru_proj; exact Hpl).
    erewrite bind_ok.
    2:{ apply setitem1_ok. lru_proj. eapply ring_ok_live; [exact Hrot|by right]. }
    erewrite bind_ok.
    2:{ apply item0_ok. lru_proj. rewrite prevf_set_next. exact Hpl. }
    erewrite bind_ok.
    2:{ apply item1_ok. lru_proj. rewrite nextf_set_next_ne; [exact Hnl|].
        by intros ->. }
    erewrite bind_ok.
    2:{ apply setitem0_ok. lru_proj. apply is_Some_deref_upd.
        eapply ring_ok_live; [exact Hrot|by right]. }
    rewrite bind_gets. lru_proj. fold st1 st2.
    erewrite bind_ok by (apply item0_ok; lru_proj; exact Hph2).
    erewrite bind_ok by (apply setitem0_ok; lru_proj; exact Hl_link2).
    erewrite bind_ok.
    2:{ apply setitem1_ok. lru_proj. by apply is_Some_deref_upd. }
    rewrite bind_modify. lru_proj. fold st3 st4.
    erewrite bind_ok.
    2:{ apply item0_ok. lru_proj. unfold st4, st3.
        rewrite prevf_set_next, prevf_set_prev_ne; [exact Hph2|done]. }
    erewrite bind_ok.
    2:{ apply setitem1_ok. lru_proj. eapply ring_ok_live; [exact Hring4|].
        by apply last_Some_elem_of. }
    fold st5. rewrite setitem0_ok; [done|]. lru_proj. apply is_Some_deref_upd.
    eapply ring_ok_live; [exact Hring4|left].
  - exact Hring6.
  - unfold st6, st5, st4, st3, st2, st1.
    by rewrite !valf_set_prev, !valf_set_next, !valf_set_prev, !valf_set_next.
  - intros x. unfold st6, st5, st4, st3, st2, st1.
    by rewrite !entry_at_set_prev, !entry_at_set_next, !entry_at_set_prev,
      !entry_at_set_next.
  - intros x. unfold st6, st5, st4, st3, st2, st1.
    by rewrite !keyf_set_prev, !keyf_set_next, !keyf_set_prev, !keyf_set_next.
Qed.

(** The relinking of a lookup, in a well-formed cache. *)
Lemma promote_inv_ring s h m1 link m2 :
  lru_inv s (h :: m1 ++ link :: m2) →
  ∃ st', promote link s = (Ok tt, with_store st' (with_head link s)) ∧
    lru_inv (with_store st' (with_head link s)) (link :: h :: m1 ++ m2) ∧
    valf st' link = valf (store s) link ∧
    ∀ x, entry_at st' x = entry_at (store s) x.
Proof.
  intros [Hm Hring Hh Hc Hsz Hf Hcap].
  destruct (promote_heap s h m1 link m2 Hring (eq_sym Hh))
    as (st' & Hp & Hring' & Hv & Hent & Hkey).
  exists st'. split; [exact Hp|]. split; [|by split].
  split; simpl; try done.
  - eapply cache_rel_perm; [exact Hc| |done].
    symmetry. apply (Permutation_middle (h :: m1) m2 link).
  - rewrite Hsz. simpl. rewrite !length_app. simpl. lia.
  - revert Hcap. simpl. rewrite !length_app. simpl. lia.
Qed.

Lemma promote_inv s h m1 link m2 :
  lru_inv s (h :: m1 ++ link :: m2) →
  ∃ st', promote link s = (Ok tt, with_store st' (with_head link s)) ∧
    lru_inv (with_store st' (with_head link s)) (link :: h :: m1 ++ m2) ∧
    valf st' link = valf (store s) link.
Proof.
  intros Hinv. destruct (promote_inv_ring s h m1 link m2 Hinv) as (st' & ? & ? & ? & _).
  by exists st'.
Qed.
End set_inv.

(** ** The methods of LRUCache on well-formed states *)

Section lru_methods.
Context {K : Type} `{Countable K} {V : Type}.
Import LRUCache.
Implicit Types (s : LRUCache.t K V) (a x : addr).

Lemma lru_set_present s key value a :
  _cache s !! key = Some a → LRUCache.set key value s = (Ok tt, s).
Proof. intros Hk. unfold LRUCache.set. by rewrite bind_gets, Hk. Qed.

Lemma lru_set_wf s key value :
  wf s →
  ∃ s', LRUCache.set key value s = (Ok tt, s') ∧ wf s' ∧
    _maxsize s' = _maxsize s ∧ hits s' = hits s ∧ misses s' = misses s.
Proof.
  intros [ring Hinv]. destruct (_cache s !! key) as [a|] eqn:Hk.
  - exists s. split; [by eapply lru_set_present|]. split; [by exists ring|done].
  - destruct ring as [|h m].
    + destruct (set_absent_empty s key value Hinv Hk) as (s' & ? & ? & ?).
      exists s'. split; [done|]. split; [by eexists|done].
    + destruct (set_absent_nonempty s h m key value Hinv Hk) as (s' & r & ? & ? & ?).
      exists s'. split; [done|]. split; [by eexists|done].
Qed.

Lemma lru_init_wf maxsize : 0 < maxsize → wf (K:=K) (V:=V) (__init__ maxsize).
Proof.
  intros Hm. exists []. split; simpl; try done.
  - apply ring_ok_nil.
  - split; [done|lia].
  - intros k a. rewrite lookup_empty, elem_of_nil. split; [done|by intros []].
  - lia.
Qed.

Lemma lru_inv_with_hits s ring (z : Z) : lru_inv s ring → lru_inv (with_hits z s) ring.
Proof. by intros []. Qed.
Lemma lru_inv_with_misses s ring (z : Z) : lru_inv s ring → lru_inv (with_misses z s) ring.
Proof. by intros []. Qed.

Lemma lru_get_absent {D} s key (d : D) :
  _cache s !! key = None →
  get key d s = (Ok (inr d), with_misses (misses s + 1) s).
Proof. intros Hk. unfold get. by rewrite bind_gets, Hk. Qed.

Lemma lru_getitem_absent s key :
  _cache s !! key = None →
  __getitem__ key s = (Raise (KeyError key), with_misses (misses s + 1) s).
Proof. intros Hk. unfold __getitem__. by rewrite bind_gets, Hk. Qed.

Lemma lru_promote_head s : promote (_head s) s = (Ok tt, s).
Proof.
  unfold promote. rewrite bind_gets.
  by rewrite bool_decide_eq_false_2 by (intros ?; done).
Qed.

Lemma lru_get_head {D} s key (d : D) v :
  _cache s !! key = Some (_head s) → valf (store s) (_head s) = Some v →
  get key d s = (Ok (inl v), with_hits (hits s + 1) s).
Proof.
  intros Hk Hv. unfold get. rewrite bind_gets, Hk.
  erewrite bind_ok by apply lru_promote_head. rewrite bind_modify.
  by erewrite bind_ok by (by apply item3_ok).
Qed.

Lemma lru_getitem_head s key v :
  _cache s !! key = Some (_head s) → valf (store s) (_head s) = Some v →
  __getitem__ key s = (Ok v, with_hits (hits s + 1) s).
Proof.
  intros Hk Hv. unfold __getitem__. rewrite bind_gets, Hk.
  erewrite bind_ok by apply lru_promote_head. rewrite bind_modify.
  by apply item3_ok.
Qed.

(** A present key: the entry is promoted (unless it is the head) and its
    value returned. *)
Lemma lru_promote_present s ring key link :
  lru_inv s ring → _cache s !! key = Some link →
  ∃ s' ring' v, promote link s = (Ok tt, s') ∧ lru_inv s' ring' ∧
    valf (store s') link = Some v ∧ _cache s' = _cache s ∧
    _maxsize s' = _maxsize s ∧ hits s' = hits s ∧ misses s' = misses s.
Proof.
  intros Hinv Hk. pose proof (inv_cache _ _ Hinv) as Hc.
  apply Hc in Hk as [Hin Hkey].
  assert (∃ v, valf (store s) link = Some v) as [v Hv].
  { unfold keyf in Hkey. unfold valf. destruct (deref (store s) link); [eauto|done]. }
  destruct ring as [|h m]; [by apply elem_of_nil in Hin|].
  pose proof (inv_head _ _ Hinv) as Hh. simpl in Hh. subst h.
  apply elem_of_cons in Hin as [->|Hin].
  - exists s, (_head s :: m), v. split; [apply lru_promote_head|done].
  - apply list_elem_of_split in Hin as (m1 & m2 & ->).
    destruct (promote_inv _ _ _ _ _ Hinv) as (st' & Hp & Hinv' & Hv').
    eexists _, _, v. split; [exact Hp|]. split; [exact Hinv'|].
    destruct s. simpl in *. by rewrite Hv'.
Qed.

Lemma lru_get_wf {D} s key (d : D) : wf s → wf (get key d s).2.
Proof.
  intros [ring Hinv]. destruct (_cache s !! key) as [link|] eqn:Hk.
  - destruct (lru_promote_present _ _ _ _ Hinv Hk) as (s' & ring' & v & Hp & Hinv' & Hv & _).
    unfold get. rewrite bind_gets, Hk. erewrite bind_ok by exact Hp.
    rewrite bind_modify. erewrite bind_ok by (by apply item3_ok).
    simpl. exists ring'. by apply lru_inv_with_hits.
  - rewrite lru_get_absent by done. exists ring. by apply lru_inv_with_misses.
Qed.

Lemma lru_getitem_wf s key : wf s → wf (__getitem__ key s).2.
Proof.
  intros [ring Hinv]. destruct (_cache s !! key) as [link|] eqn:Hk.
  - destruct (lru_promote_present _ _ _ _ Hinv Hk) as (s' & ring' & v & Hp & Hinv' & Hv & _).
    unfold __getitem__. rewrite bind_gets, Hk. erewrite bind_ok by exact Hp.
    rewrite bind_modify. rewrite item3_ok with (v := v) by done.
    simpl. exists ring'. by apply lru_inv_with_hits.
  - rewrite lru_getitem_absent by done. exists ring. by apply lru_inv_with_misses.
Qed.

Lemma lru_grow_wf s n : wf s → wf (grow n s).2.
Proof.
  intros [ring [Hm Hring Hh Hc Hsz Hf Hcap]]. exists ring.
  unfold grow, maxsize, set_maxsize. rewrite bind_gets. simpl.
  split; simpl; try done; lia.
Qed.

Lemma lru_clear_wf s : wf s → wf (clear s).2.
Proof.
  intros [ring [Hm Hring Hh Hc Hsz Hf Hcap]]. exists [].
  unfold clear. rewrite !bind_modify. unfold new_list.
  erewrite bind_ok by reflexivity. simpl.
  split; simpl; try done.
  - apply ring_ok_nil.
  - rewrite deref_snoc, decide_True by done. split; [done|].
    rewrite length_app. simpl. lia.
  - intros k a. rewrite lookup_empty, elem_of_nil. split; [done|by intros []].
  - lia.
Qed.

Lemma lru_call_wf c s : wf s → wf (call c s).2.
Proof.
  intros Hwf. destruct c as [key value|key|key|key|n| | | |]; simpl; try done.
  - by destruct (lru_set_wf s key value Hwf) as (s' & -> & ? & _).
  - pose proof (lru_get_wf s key tt Hwf) as Hg. unfold bind.
    by destruct (get key tt s) as [[?|?] ?].
  - pose proof (lru_getitem_wf s key Hwf) as Hg. unfold bind.
    by destruct (__getitem__ key s) as [[?|?] ?].
  - by apply lru_grow_wf.
  - by apply lru_clear_wf.
Qed.

Lemma reachable_wf s : reachable s → wf s.
Proof. induction 1; [by apply lru_init_wf|by apply lru_call_wf]. Qed.
End lru_methods.

(** ** No method of LRUCache other than the [maxsize] setter writes [_maxsize] *)

Section lru_maxsize.
Context {K : Type} `{Countable K} {V : Type}.
Import LRUCache.
Implicit Types (s : LRUCache.t K V) (key : K) (value : V).
Local Abbreviation Meth := (M K (LRUCache.t K V)).

Lemma km_ret {A} (a : A) : keeps_maxsize (ret a : Meth A).
Proof. by intros s. Qed.
Lemma km_raise {A} e : keeps_maxsize (raise e : Meth A).
Proof. by intros s. Qed.
Lemma km_gets {A} (g : _ → A) : keeps_maxsize (gets g : Meth A).
Proof. by intros s. Qed.
Lemma km_modify (g : LRUCache.t K V → LRUCache.t K V) :
  (∀ s, _maxsize (g s) = _maxsize s) → keeps_maxsize (modify g : Meth unit).
Proof. intros Hg s. apply Hg. Qed.
Lemma km_bind {A B} (c : Meth A) (f : A → Meth B) :
  keeps_maxsize c → (∀ a, keeps_maxsize (f a)) → keeps_maxsize (bind c f).
Proof.
  intros Hc Hf s. unfold bind. specialize (Hc s).
  destruct (c s) as [[a|e] s']; simpl in *; [|done].
  by rewrite Hf.
Qed.
Lemma km_getitem_field {A} (g : link K V → A) a : keeps_maxsize (getitem_field g a).
Proof. intros s. unfold getitem_field. by destruct (deref _ _). Qed.
Lemma km_setitem_with g a : keeps_maxsize (setitem_with (K:=K) (V:=V) g a).
Proof. intros s. unfold setitem_with. by destruct (deref _ _). Qed.
Lemma km_new_list c : keeps_maxsize (new_list (K:=K) (V:=V) c).
Proof. by intros s. Qed.
Lemma km_cache_delitem (k : K) : keeps_maxsize (cache_delitem (V:=V) k).
Proof. intros s. unfold cache_delitem. by destruct (_ !! _). Qed.

Ltac km :=
  repeat first
    [ apply km_ret | apply km_raise | apply km_gets
    | apply km_getitem_field | apply km_setitem_with
    | apply km_new_list | apply km_cache_delitem
    | apply km_modify; by intros []
    | apply km_bind; [|intros ?]
    | match goal with
      | |- keeps_maxsize (if ?b then _ else _) => destruct b
      | |- keeps_maxsize (match ?x with _ => _ end) => destruct x
      end ].

Lemma km_set key value : keeps_maxsize (LRUCache.set key value).
Proof.
  unfold LRUCache.set, truthy, slice_assign, item0, item2, setitem0, setitem1, __len__.
  km.
Qed.

Lemma km_promote link : keeps_maxsize (promote (K:=K) (V:=V) link).
Proof. unfold promote, item0, item1, setitem0, setitem1. km. Qed.

Lemma km_get {D} key (d : D) : keeps_maxsize (get (V:=V) key d).
Proof. unfold get, item3. km; apply km_promote. Qed.

Lemma km_getitem key : keeps_maxsize (__getitem__ (V:=V) key).
Proof. unfold __getitem__, item3. km; apply km_promote. Qed.

Lemma km_clear : keeps_maxsize (clear (K:=K) (V:=V)).
Proof. unfold clear. km. Qed.
End lru_maxsize.

(** ** The dict and the methods of FIFOCache *)

Section fifo_facts.
Context {K : Type} `{EqDecision K} {V : Type}.
Import FIFOCache.
Implicit Types (s : FIFOCache.t K V) (d : dict K V) (key k : K) (value v : V).

Lemma dict_contains_true key d :
  dict_contains key d = true ↔ is_Some (dict_get key d).
Proof. unfold dict_contains. apply bool_decide_eq_true. Qed.

Lemma dict_contains_false key d :
  dict_contains key d = false ↔ dict_get key d = None.
Proof.
  unfold dict_contains. rewrite bool_decide_eq_false.
  by rewrite <-eq_None_not_Some.
Qed.

Lemma dict_get_setitem key value d k :
  dict_get k (dict_setitem key value d) =
  if decide (k = key) then Some value else dict_get k d.
Proof.
  induction d as [|[k0 v0] d IH]; simpl.
  - repeat case_decide; congruence.
  - repeat (case_decide; simpl); congruence.
Qed.

Lemma dict_keys_setitem_present key value d :
  is_Some (dict_get key d) →
  dict_keys (dict_setitem key value d) = dict_keys d.
Proof.
  unfold dict_keys. induction d as [|[k0 v0] d IH]; simpl.
  - by intros [? ?].
  - case_decide; simpl; [done|]. intros Hs. f_equal. by apply IH.
Qed.

Lemma dict_keys_setitem_absent key value d :
  dict_get key d = None →
  dict_keys (dict_setitem key value d) = dict_keys d ++ [key].
Proof.
  unfold dict_keys. induction d as [|[k0 v0] d IH]; simpl; [done|].
  case_decide; simpl; [done|]. intros Hs. f_equal. by apply IH.
Qed.

Lemma length_dict_setitem key value d :
  length (dict_setitem key value d) =
  if dict_contains key d then length d else S (length d).
Proof.
  destruct (dict_contains key d) eqn:Hc.
  - apply dict_contains_true in Hc.
    rewrite <-(length_fmap fst), <-(length_fmap fst d).
    f_equal. by apply dict_keys_setitem_present.
  - apply dict_contains_false in Hc.
    rewrite <-(length_fmap fst). 
    change (length (dict_keys (dict_setitem key value d)) = S (length d)).
    rewrite dict_keys_setitem_absent by done.
    unfold dict_keys. rewrite length_app, length_fmap. simpl. lia.
Qed.

Lemma fifo_set_present s key value :
  dict_contains key (_cache s) = true →
  FIFOCache.set key value s =
    (Ok tt, with_cache (dict_setitem key value (_cache s)) s).
Proof.
  intros Hc. unfold FIFOCache.set. rewrite bind_gets, Hc. simpl negb.
  unfold __len__. rewrite !bind_gets. simpl andb. cbv iota.
  by rewrite bind_ret.
Qed.

(** A new key when the cache is at capacity and not empty: the first key
    in iteration order goes, then the new entry is appended. *)
Lemma fifo_set_absent_full s key value k0 v0 rest :
  _cache s = (k0, v0) :: rest → dict_contains key (_cache s) = false →
  _maxsize s ≤ Z.of_nat (length (_cache s)) →
  FIFOCache.set key value s =
    (Ok tt, with_cache (dict_setitem key value rest) s).
Proof.
  intros Hcache Hc Hfull. unfold FIFOCache.set. rewrite bind_gets, Hc. simpl negb.
  unfold __len__. rewrite !bind_gets.
  rewrite (proj2 (Z.leb_le _ _)) by done. simpl andb. cbv iota.
  rewrite !bind_bind. unfold first_key at 1.
  erewrite bind_ok by (rewrite Hcache; reflexivity).
  rewrite bind_bind. unfold cache_pop at 1.
  erewrite bind_ok.
  2:{ rewrite Hcache. simpl. rewrite decide_True by done. reflexivity. }
  rewrite bind_ret. unfold modify. simpl. rewrite decide_True by done.
  by destruct s.
Qed.

Lemma fifo_set_absent_room s key value :
  dict_contains key (_cache s) = false →
  Z.of_nat (length (_cache s)) < _maxsize s →
  FIFOCache.set key value s =
    (Ok tt, with_cache (dict_setitem key value (_cache s)) s).
Proof.
  intros Hc Hroom. unfold FIFOCache.set. rewrite bind_gets, Hc. simpl negb.
  unfold __len__. rewrite !bind_gets.
  rewrite (proj2 (Z.leb_gt _ _)) by done. simpl andb. cbv iota.
  by rewrite bind_ret.
Qed.

Lemma fifo_set_capacity s key value :
  0 < _maxsize s → Z.of_nat (length (_cache s)) ≤ _maxsize s →
  ∃ s', FIFOCache.set key value s = (Ok tt, s') ∧
    _maxsize s' = _maxsize s ∧
    Z.of_nat (length (_cache s')) ≤ _maxsize s'.
Proof.
  intros Hpos Hcap. destruct (dict_contains key (_cache s)) eqn:Hc.
  - eexists. split; [by apply fifo_set_present|]. simpl. split; [done|].
    by rewrite length_dict_setitem, Hc.
  - destruct (decide (Z.of_nat (length (_cache s)) < _maxsize s)) as [Hroom|Hfull].
    + eexists. split; [by apply fifo_set_absent_room|]. simpl. split; [done|].
      rewrite length_dict_setitem, Hc. lia.
    + destruct (_cache s) as [|[k0 v0] rest] eqn:Hcache; [simpl in *; lia|].
      eexists. split.
      { eapply fifo_set_absent_full; [done|by rewrite Hcache|rewrite Hcache; lia]. }
      simpl. split; [done|]. rewrite length_dict_setitem.
      destruct (dict_contains key rest); simpl in *; lia.
Qed.

Lemma fifo_sets_capacity (kvs : list (K * V)) s :
  0 < _maxsize s → Z.of_nat (length (_cache s)) ≤ _maxsize s →
  ∃ s', run_all (fifo_set_calls kvs) s = (Ok tt, s') ∧
    _maxsize s' = _maxsize s ∧
    Z.of_nat (length (_cache s')) ≤ _maxsize s'.
Proof.
  revert s. induction kvs as [|[k v] kvs IH]; intros s Hpos Hcap.
  - by exists s.
  - destruct (fifo_set_capacity s k v Hpos Hcap) as (s1 & Hs1 & Hm1 & Hc1).
    destruct (IH s1) as (s' & Hs' & Hm' & Hc'); [lia|done|].
    exists s'. split; [|split; [congruence|done]].
    simpl. by erewrite bind_ok by exact Hs1.
Qed.
End fifo_facts.

(** ** What every state of an LRUCache has in common *)

Section lru_shape_facts.
Context {K : Type} `{Countable K} {V : Type}.
Import LRUCache.
Implicit Types (s : LRUCache.t K V) (key k : K) (value v : V).

Lemma lru_shape_with_hits s ring (z : Z) :
  lru_shape s ring → lru_shape (with_hits z s) ring.
Proof. by intros []. Qed.
Lemma lru_shape_with_misses s ring (z : Z) :
  lru_shape s ring → lru_shape (with_misses z s) ring.
Proof. by intros []. Qed.
Lemma lru_shape_with_maxsize s ring (z : Z) :
  lru_shape s ring → lru_shape (with_maxsize z s) ring.
Proof. by intros []. Qed.

Lemma wf_shaped s : wf s → shaped s.
Proof. intros [ring Hinv]. exists ring. split; [apply Hinv..|left; apply Hinv]. Qed.

Lemma shaped_init maxsize : shaped (K:=K) (V:=V) (__init__ maxsize).
Proof.
  exists []. split; simpl.
  - apply ring_ok_nil.
  - split; [done|lia].
  - left. intros k a. rewrite lookup_empty, elem_of_nil. split; [done|by intros []].
Qed.

Lemma cache_rel_nil (c : gmap K addr) (st : list (option (link K V))) :
  cache_rel c st [] → c = ∅.
Proof.
  intros Hc. apply map_eq. intros k. rewrite lookup_empty.
  apply eq_None_not_Some. intros [a Ha]. apply Hc in Ha as [Ha _].
  by apply elem_of_nil in Ha.
Qed.

Lemma cache_rel_singleton (st : list (option (link K V))) key a :
  keyf st a = Some key → cache_rel {[key := a]} st [a].
Proof.
  intros Hkey k b. rewrite lookup_singleton_Some, list_elem_of_singleton.
  split; [intros [<- <-]; by split|]. intros [-> Hb]. split; congruence.
Qed.

(** The first entry, on the store alone: when the cache is marked full or
    [maxsize] is below 1 the entry is evicted in the same call. *)
Lemma set_absent_empty_heap s key value :
  deref (store s) (_head s) = None → (_head s < length (store s))%nat →
  _cache s !! key = None →
  ∃ st', deref st' (_head s) = Some (Link (_head s) (_head s) key value) ∧
    LRUCache.set key value s =
      (Ok tt,
       if _full s || (_maxsize s <? Z.of_nat (S (size (_cache s))))
       then Build (_maxsize s) (_cache s) true (_head s) (hits s) (misses s) st'
       else Build (_maxsize s) (<[key := _head s]> (_cache s)) false (_head s)
              (hits s) (misses s) st').
Proof.
  intros Hh Hlt Hk. destruct s as [m c f h hi mi st]. lru_proj.
  set (st' := <[h := Some (Link h h key value)]> st).
  assert (deref st' h = Some (Link h h key value)) as Hd.
  { unfold st'. by rewrite deref_insert, decide_True. }
  unfold LRUCache.set. rewrite bind_gets. lru_proj. rewrite Hk, bind_gets.
  unfold truthy. rewrite bind_gets. lru_proj. rewrite Hh.
  rewrite bool_decide_eq_false_2 by (intros ?; done).
  cbn [negb]. unfold slice_assign. rewrite bind_modify.
  rewrite bind_gets, bind_modify, bind_gets.
  unfold __len__. rewrite !bind_gets. lru_proj. fold st'.
  rewrite map_size_insert_None by done.
  destruct (f || (m <? Z.of_nat (S (size c)))) eqn:Hev.
  2:{ apply orb_false_iff in Hev as [-> _]. by exists st'. }
  assert (prevf st' h = Some h) as Hp by (unfold prevf; by rewrite Hd).
  assert (st_set_next st' h h = st') as Hsn.
  { unfold st_set_next, st_upd. rewrite Hd. simpl. unfold st'.
    by rewrite list_insert_insert_eq. }
  assert (st_set_prev st' h h = st') as Hsp.
  { unfold st_set_prev, st_upd. rewrite Hd. simpl. unfold st'.
    by rewrite list_insert_insert_eq. }
  rewrite bind_modify, bind_gets. lru_proj.
  erewrite bind_ok by (apply item0_ok; lru_proj; exact Hp).
  erewrite bind_ok by (apply item0_ok; lru_proj; exact Hp).
  erewrite bind_ok by (apply setitem1_ok; lru_proj; by rewrite Hd).
  lru_proj. rewrite Hsn.
  erewrite bind_ok by (apply item0_ok; lru_proj; exact Hp).
  erewrite bind_ok by (apply setitem0_ok; lru_proj; by rewrite Hd).
  lru_proj. rewrite Hsp.
  erewrite bind_ok by (apply item2_ok; lru_proj; unfold keyf; by rewrite Hd).
  unfold cache_delitem. lru_proj. rewrite lookup_insert_eq.
  rewrite delete_insert_eq, delete_id by done. by exists st'.
Qed.

Lemma shaped_set s key value : shaped s → shaped (LRUCache.set key value s).2.
Proof.
  intros [ring [Hring Hh Hc]]. destruct (_cache s !! key) as [a|] eqn:Hk.
  { erewrite lru_set_present by done. by exists ring. }
  destruct ring as [|h m0].
  - destruct Hc as [Hc|(_ & _ & ?)]; [|done]. apply cache_rel_nil in Hc.
    destruct Hh as [Hd Hlt].
    destruct (set_absent_empty_heap s key value Hd Hlt Hk) as (st' & Hd' & ->).
    exists [_head s].
    assert (ring_ok st' [_head s]) as Hring'.
    { apply ring_ok_singleton; unfold nextf, prevf; by rewrite Hd'. }
    rewrite Hc. destruct (_full s || _); simpl; split; simpl; try done.
    + by right.
    + left. rewrite insert_empty. apply cache_rel_singleton.
      unfold keyf. by rewrite Hd'.
  - simpl in Hh.
    destruct (set_absent_nonempty_heap s h m0 key value Hring (eq_sym Hh) Hk)
      as (st' & Hent_new & Hent_old & Hcase).
    set (new := length (store s)) in *.
    assert (new ∉ h :: m0) as Hnew_ni.
    { intros Hx. destruct (ring_ok_live _ _ _ Hring Hx) as [lk Hlk].
      apply deref_Some_lt in Hlk. unfold new in Hlk. lia. }
    assert (keyf st' new = Some key) as Hknew.
    { unfold entry_at in Hent_new. unfold keyf.
      destruct (deref st' new); simpl in *; congruence. }
    destruct (_full s || _) eqn:Hev.
    + destruct Hcase as (front & lst & kl & Hfront & Hkl & Hring' & Hset).
      assert (lst ∈ h :: m0) as Hlst.
      { rewrite Hfront. apply elem_of_app. right. left. }
      assert (keyf st' lst = Some kl) as Hkl'.
      { rewrite <-Hkl. by apply entry_at_keyf, Hent_old. }
      destruct Hc as [Hc|(Hc & Hf & Hlen)].
      * assert (cache_rel (<[key := new]> (_cache s)) st' (new :: h :: m0)) as Hc1.
        { apply cache_rel_insert with (st := store s); try done.
          intros x Hx. by apply entry_at_keyf, Hent_old. }
        assert (<[key := new]> (_cache s) !! kl = Some lst) as Hlk.
        { apply Hc1. split; [by right|done]. }
        rewrite Hlk in Hset. rewrite Hset. exists (new :: front).
        split; simpl; try done. left.
        apply cache_rel_delete with (st := st') (l := new :: h :: m0) (a := lst);
          try done.
        -- apply NoDup_cons. split; [|apply Hring'].
           intros Hx. destruct Hring as [Hnd _]. rewrite Hfront in Hnd.
           apply NoDup_app in Hnd as (_ & Hdisj & _).
           apply elem_of_cons in Hx as [->|Hx]; [done|].
           apply (Hdisj lst Hx). left.
        -- rewrite Hfront.
           by rewrite (Permutation_app_comm front [lst]), Permutation_swap.
      * assert (front = [] ∧ lst = h ∧ m0 = []) as (-> & -> & ->).
        { destruct m0; [|done]. destruct front as [|? [|]]; simplify_eq/=; done. }
        rewrite Hc in Hset. exists [new].
        destruct (decide (kl = key)) as [->|Hne].
        -- rewrite lookup_insert_eq in Hset. rewrite Hset.
           split; simpl; try done. right.
           by rewrite delete_insert_eq, delete_empty.
        -- rewrite lookup_insert_ne, lookup_empty in Hset by done. rewrite Hset.
           split; simpl; try done. left. rewrite insert_empty.
           by apply cache_rel_singleton.
    + destruct Hcase as [Hring' Hset]. rewrite Hset.
      apply orb_false_iff in Hev as [Hfull _].
      destruct Hc as [Hc|(_ & Hf & _)]; [|congruence].
      exists (new :: h :: m0). split; simpl; try done. left.
      apply cache_rel_insert with (st := store s); try done.
      intros x Hx. by apply entry_at_keyf, Hent_old.
Qed.

(** What a lookup of a present key leaves, whatever it returns. *)
Lemma shaped_promote s key link :
  shaped s → _cache s !! key = Some link →
  ∃ s', promote link s = (Ok tt, s') ∧ shaped s' ∧
    is_Some (valf (store s') link).
Proof.
  intros [ring [Hring Hh Hc]] Hk.
  destruct Hc as [Hc|(Hc & _)]; [|by rewrite Hc, lookup_empty in Hk].
  pose proof Hk as [Hin Hkey]%Hc.
  assert (is_Some (valf (store s) link)) as Hv.
  { unfold keyf in Hkey. unfold valf. destruct (deref (store s) link); [eauto|done]. }
  destruct ring as [|h m]; [by apply elem_of_nil in Hin|]. simpl in Hh. subst h.
  apply elem_of_cons in Hin as [->|Hin].
  - exists s. split; [apply lru_promote_head|]. split; [|done].
    exists (_head s :: m). split; [done..|by left].
  - apply list_elem_of_split in Hin as (m1 & m2 & ->).
    destruct (promote_heap s (_head s) m1 link m2 Hring eq_refl)
      as (st' & Hp & Hring' & Hv' & Hent & Hkeys).
    eexists. split; [exact Hp|]. split; [|destruct s; simpl in *; by rewrite Hv'].
    exists (link :: _head s :: m1 ++ m2). split; [by destruct s..|].
    left. destruct s; simpl in *. eapply cache_rel_perm; [exact Hc| |done].
    symmetry. apply (Permutation_middle (_ :: m1) m2 link).
Qed.

Lemma shaped_get {D} s key (d : D) : shaped s → shaped (get key d s).2.
Proof.
  intros Hs. destruct (_cache s !! key) as [link|] eqn:Hk.
  - destruct (shaped_promote _ _ _ Hs Hk) as (s' & Hp & [ring Hs'] & [v Hv]).
    unfold get. rewrite bind_gets, Hk. erewrite bind_ok by exact Hp.
    rewrite bind_modify. erewrite bind_ok by (by apply item3_ok).
    simpl. exists ring. by apply lru_shape_with_hits.
  - rewrite lru_get_absent by done. destruct Hs as [ring Hs].
    exists ring. by apply lru_shape_with_misses.
Qed.

Lemma shaped_getitem s key : shaped s → shaped (__getitem__ key s).2.
Proof.
  intros Hs. destruct (_cache s !! key) as [link|] eqn:Hk.
  - destruct (shaped_promote _ _ _ Hs Hk) as (s' & Hp & [ring Hs'] & [v Hv]).
    unfold __getitem__. rewrite bind_gets, Hk. erewrite bind_ok by exact Hp.
    rewrite bind_modify. rewrite item3_ok with (v := v) by done.
    simpl. exists ring. by apply lru_shape_with_hits.
  - rewrite lru_getitem_absent by done. destruct Hs as [ring Hs].
    exists ring. by apply lru_shape_with_misses.
Qed.

Lemma shaped_assign s n : shaped s → shaped (set_maxsize n s).2.
Proof. intros [ring Hs]. exists ring. by apply lru_shape_with_maxsize. Qed.

Lemma shaped_grow s n : shaped s → shaped (grow n s).2.
Proof.
  intros Hs. unfold grow, maxsize. rewrite bind_gets. by apply shaped_assign.
Qed.

Lemma shaped_clear s : shaped (clear s).2.
Proof.
  exists []. unfold clear. rewrite !bind_modify. unfold new_list.
  erewrite bind_ok by reflexivity. simpl. split; simpl.
  - apply ring_ok_nil.
  - rewrite deref_snoc, decide_True by done. split; [done|].
    rewrite length_app. simpl. lia.
  - left. intros k a. rewrite lookup_empty, elem_of_nil. split; [done|by intros []].
Qed.

Lemma shaped_call c s : shaped s → shaped (call c s).2.
Proof.
  intros Hs. destruct c as [key value|key|key|key|n| | | |]; simpl; try done.
  - by apply shaped_set.
  - pose proof (shaped_get s key tt Hs) as Hg. unfold bind.
    by destruct (get key tt s) as [[?|?] ?].
  - pose proof (shaped_getitem s key Hs) as Hg. unfold bind.
    by destruct (__getitem__ key s) as [[?|?] ?].
  - by apply shaped_grow.
  - by apply shaped_clear.
Qed.

Lemma lru_state_shaped s : lru_state s → shaped s.
Proof.
  induction 1; [apply shaped_init|by apply shaped_call|by apply shaped_assign].
Qed.

(** In every state of an LRUCache the mapping sends the key of the head
    entry to the head entry, if to anything. *)
Lemma shaped_head_key s k a :
  shaped s → keyf (store s) (_head s) = Some k → _cache s !! k = Some a →
  a = _head s.
Proof.
  intros [ring [[Hnd _] Hh Hc]] Hkey Hk.
  destruct Hc as [Hc|(Hc & _)]; [|by rewrite Hc, lookup_empty in Hk].
  destruct ring as [|h m].
  { destruct Hh as [Hd _]. unfold keyf in Hkey. by rewrite Hd in Hkey. }
  simpl in Hh. subst h.
  assert (_cache s !! k = Some (_head s)) as Hk' by (apply Hc; split; [left|done]).
  congruence.
Qed.

(** A lookup of the key of the head entry, held by the mapping: a hit that
    relinks nothing. *)
Lemma lookup_head_hit s k c :
  _cache s !! k = Some (_head s) → is_Some (valf (store s) (_head s)) →
  is_lookup_of k c → call c s = (Ok tt, with_hits (hits s + 1) s).
Proof.
  intros Hk [v Hv] [->| ->]; simpl.
  - by erewrite bind_ok by (by apply lru_get_head).
  - by erewrite bind_ok by (by apply lru_getitem_head).
Qed.

(** A lookup of a key that the mapping does not hold: a miss, whether the
    lookup returns (get) or raises (indexed access). *)
Lemma lookup_miss s k c :
  _cache s !! k = None → is_lookup_of k c →
  (call c s).2 = with_misses (misses s + 1) s.
Proof.
  intros Hk [->| ->]; simpl; unfold bind.
  - by rewrite lru_get_absent.
  - by rewrite lru_getitem_absent.
Qed.

Lemma lookups_head_hit s k (cs : list method) :
  _cache s !! k = Some (_head s) → is_Some (valf (store s) (_head s)) →
  Forall (is_lookup_of k) cs →
  run_all (call <$> cs) s =
    (Ok tt, with_hits (hits s + Z.of_nat (length cs)) s).
Proof.
  intros Hk Hv Hcs. revert s Hk Hv.
  induction Hcs as [|c cs Hc _ IH]; intros s Hk Hv.
  - simpl. unfold ret. f_equal. unfold with_hits. destruct s; simpl. f_equal. lia.
  - simpl. erewrite bind_ok by (by eapply lookup_head_hit).
    rewrite IH by done. f_equal. unfold with_hits. destruct s; simpl. f_equal. lia.
Qed.

Lemma lookups_miss s k (cs : list method) :
  _cache s !! k = None → Forall (is_lookup_of k) cs →
  exec (call <$> cs) s = with_misses (misses s + Z.of_nat (length cs)) s.
Proof.
  intros Hk Hcs. revert s Hk.
  induction Hcs as [|c cs Hc _ IH]; intros s Hk.
  - unfold exec. simpl. unfold with_misses. destruct s; simpl. f_equal. lia.
  - rewrite fmap_cons, exec_cons. erewrite lookup_miss by done.
    rewrite IH by done. unfold with_misses. destruct s; simpl. f_equal. lia.
Qed.
End lru_shape_facts.

(** ** The properties of the specification *)

Section claims.
Context {K : Type} `{Countable K} {V : Type}.
Implicit Types (key k : K) (value v : V).

Lemma lru_sets_wf (kvs : list (K * V)) (s : LRUCache.t K V) :
  wf s →
  ∃ s', run_all (set_calls kvs) s = (Ok tt, s') ∧ wf s' ∧
    LRUCache._maxsize s' = LRUCache._maxsize s.
Proof.
  revert s. induction kvs as [|[k v] kvs IH]; intros s Hwf.
  - by exists s.
  - destruct (lru_set_wf s k v Hwf) as (s1 & Hs1 & Hwf1 & Hm1 & _).
    destruct (IH s1 Hwf1) as (s' & Hs' & Hwf' & Hm').
    exists s'. split; [|split; [done|congruence]].
    simpl. by erewrite bind_ok by exact Hs1.
Qed.

Lemma wf_capacity (s : LRUCache.t K V) :
  wf s → Z.of_nat (size (LRUCache._cache s)) ≤ LRUCache._maxsize s.
Proof. intros [ring Hinv]. rewrite (inv_size _ _ Hinv). apply Hinv. Qed.

(** C1. Capacity invariant: a cache of either kind constructed with a
    positive [maxsize] accepts any sequence of [set] calls with pairwise
    distinct keys, and after each of them (after the first [n], for every
    [n]) its mapping holds at most [maxsize] entries. *)
Theorem capacity_invariant (maxsize : Z) (kvs : list (K * V)) (n : nat) :
  0 < maxsize → NoDup kvs.*1 →
  (∃ s : LRUCache.t K V,
     run_all (set_calls (take n kvs)) (LRUCache.__init__ maxsize) = (Ok tt, s) ∧
     LRUCache._maxsize s = maxsize ∧
     Z.of_nat (size (LRUCache._cache s)) ≤ maxsize) ∧
  (∃ s : FIFOCache.t K V,
     run_all (fifo_set_calls (take n kvs)) (FIFOCache.__init__ maxsize) = (Ok tt, s) ∧
     FIFOCache._maxsize s = maxsize ∧
     Z.of_nat (length (FIFOCache._cache s)) ≤ maxsize).
Proof.
  intros Hpos _. split.
  - destruct (lru_sets_wf (take n kvs) (LRUCache.__init__ maxsize))
      as (s & Hs & Hwf & Hm); [by apply lru_init_wf|].
    exists s. split; [done|]. split; [done|].
    simpl in Hm. rewrite <-Hm. by apply wf_capacity.
  - destruct (fifo_sets_capacity (take n kvs) (FIFOCache.__init__ maxsize))
      as (s & Hs & Hm & Hc); [done|simpl; lia|].
    exists s. simpl in Hm. split_and!; [done|done|lia].
Qed.

(** C2. [LRUCache.set] on a key that is already in the mapping is a no-op:
    the call returns and the whole state (stored value, ring, mapping,
    counters, full flag) is what it was. *)
Theorem lru_set_present_noop (s : LRUCache.t K V) key value :
  is_Some (LRUCache._cache s !! key) →
  LRUCache.set key value s = (Ok tt, s).
Proof. intros [a Ha]. by eapply lru_set_present. Qed.

(** C4 (amended). [grow n] sets [maxsize] to the larger of the current
    value and [n]: unchanged when the current value is at least [n],
    exactly [n] when [n] is larger. No method call changes [maxsize]
    downwards, whether it returns or raises; only an assignment to the
    public [maxsize] property does, which stores the value it is given. *)
Theorem lru_maxsize_grows_except_by_assignment (s : LRUCache.t K V) :
  (∀ n, LRUCache.grow n s =
          (Ok tt, LRUCache.with_maxsize (Z.max (LRUCache._maxsize s) n) s)) ∧
  (∀ n, n ≤ LRUCache._maxsize s →
        LRUCache._maxsize (LRUCache.grow n s).2 = LRUCache._maxsize s) ∧
  (∀ n, LRUCache._maxsize s < n →
        LRUCache._maxsize (LRUCache.grow n s).2 = n) ∧
  (∀ c, LRUCache._maxsize s ≤ LRUCache._maxsize (call c s).2) ∧
  (∀ n, LRUCache.set_maxsize n s = (Ok tt, LRUCache.with_maxsize n s)).
Proof.
  assert (∀ n, LRUCache.grow n s =
    (Ok tt, LRUCache.with_maxsize (Z.max (LRUCache._maxsize s) n) s)) as Hgrow by done.
  split_and!; try done.
  - intros n Hn. rewrite Hgrow. simpl. lia.
  - intros n Hn. rewrite Hgrow. simpl. lia.
  - intros c.
    assert (keeps_maxsize (call c) ∨ ∃ n, c = CallGrow n) as [Hk|[n ->]].
    { destruct c; eauto; left; simpl.
      - apply km_set.
      - apply km_bind; [apply km_get|intros; apply km_ret].
      - apply km_bind; [apply km_getitem|intros; apply km_ret].
      - apply km_bind; [apply km_gets|intros; apply km_ret].
      - apply km_clear.
      - apply km_bind; [apply km_gets|intros; apply km_ret].
      - apply km_bind; [apply km_gets|intros; apply km_ret].
      - apply km_bind; [apply km_gets|intros; apply km_ret]. }
    + by rewrite Hk.
    + change (call (CallGrow n) s) with (LRUCache.grow n s).
      rewrite Hgrow. simpl. lia.
Qed.

(** C9. In every state of an LRUCache (constructed with any [maxsize],
    then used and resized in any way) whose head entry has key [k], any
    number of lookups of [k], by [get] or by [__getitem__] in any mix,
    whether they return or raise, leave the ring (every entry and the
    head), the mapping, the full flag and [maxsize] exactly as they were:
    nothing is relinked, nothing is evicted and no key leaves the mapping.
    Only a counter moves: [hits] counts the lookups when the mapping holds
    [k], and then every one of them returns; [misses] counts them when it
    does not (the head entry was evicted by the [set] that inserted it). *)
Theorem lru_lookup_head_idempotent (s : LRUCache.t K V) k (cs : list method) :
  lru_state s → keyf (LRUCache.store s) (LRUCache._head s) = Some k →
  Forall (is_lookup_of k) cs →
  exec (call <$> cs) s =
    (if decide (is_Some (LRUCache._cache s !! k))
     then LRUCache.with_hits (LRUCache.hits s + Z.of_nat (length cs)) s
     else LRUCache.with_misses (LRUCache.misses s + Z.of_nat (length cs)) s) ∧
  (is_Some (LRUCache._cache s !! k) →
   run_all (call <$> cs) s =
     (Ok tt, LRUCache.with_hits (LRUCache.hits s + Z.of_nat (length cs)) s)).
Proof.
  intros Hst%lru_state_shaped Hkey Hcs.
  destruct (LRUCache._cache s !! k) as [a|] eqn:Hk.
  - pose proof (shaped_head_key _ _ _ Hst Hkey Hk) as ->.
    assert (is_Some (valf (LRUCache.store s) (LRUCache._head s))) as Hv.
    { unfold keyf in Hkey. unfold valf.
      destruct (LRUCache.deref _ _); [eauto|done]. }
    pose proof (lookups_head_hit s k cs Hk Hv Hcs) as Hrun.
    split; [|done]. rewrite decide_True by eauto. by apply run_all_exec.
  - split; [|by intros [? ?]].
    rewrite decide_False by (by intros [? ?]). by apply (lookups_miss s k).
Qed.
End claims.

Section fifo_claims.
Context {K : Type} `{EqDecision K} {V : Type}.
Import FIFOCache.
Implicit Types (s : FIFOCache.t K V) (key k : K) (value v : V).

Lemma fifo_getitem_absent s key :
  dict_get key (_cache s) = None →
  __getitem__ key s =
    (Raise (KeyError key),
     Build (_maxsize s) (_cache s) (hits s + 1) (misses s + 1)).
Proof.
  intros Hk. unfold __getitem__, try_except_finally, cache_getitem.
  by rewrite Hk.
Qed.

(** C5. [FIFOCache.__getitem__] on an absent key raises [KeyError] and
    leaves both counters one higher: [misses] from the handler and [hits]
    from the [finally] clause, which runs after it. *)
Theorem fifo_getitem_absent_counts_both s key :
  dict_get key (_cache s) = None →
  __getitem__ key s =
    (Raise (KeyError key),
     Build (_maxsize s) (_cache s) (hits s + 1) (misses s + 1)).
Proof. apply fifo_getitem_absent. Qed.

(** C7. [FIFOCache.set] on a key that is already in the mapping returns
    and replaces the value in place: the keys and their iteration order
    are the same (so nothing was evicted and the key did not move, also
    when the cache is at capacity), the key now maps to the new value and
    every other key to what it mapped to. *)
Theorem fifo_set_present_overwrites s key value :
  dict_contains key (_cache s) = true →
  ∃ s', FIFOCache.set key value s = (Ok tt, s') ∧
    dict_keys (_cache s') = dict_keys (_cache s) ∧
    dict_get key (_cache s') = Some value ∧
    (∀ k, k ≠ key → dict_get k (_cache s') = dict_get k (_cache s)) ∧
    length (_cache s') = length (_cache s) ∧
    _maxsize s' = _maxsize s ∧ hits s' = hits s ∧ misses s' = misses s.
Proof.
  intros Hc. eexists. split; [by apply fifo_set_present|]. simpl.
  split_and!; try done.
  - apply dict_keys_setitem_present. by apply dict_contains_true.
  - by rewrite dict_get_setitem, decide_True.
  - intros k Hne. by rewrite dict_get_setitem, decide_False.
  - by rewrite length_dict_setitem, Hc.
Qed.

(** C8. A new FIFOCache of [maxsize] 2 after [set(A)], [set(B)] holds
    [A], [B] in this order; [set(C)] then evicts [A], the first key in
    iteration order, leaving [B], [C]; and [get(A, default)] returns the
    default. *)
Theorem fifo_evicts_oldest (A B C : K) (va vb vc : V) {D} (default : D) :
  A ≠ B → A ≠ C → B ≠ C →
  ∃ s2 s3,
    run_all [FIFOCache.set A va; FIFOCache.set B vb] (__init__ 2) = (Ok tt, s2) ∧
    dict_keys (_cache s2) = [A; B] ∧
    FIFOCache.set C vc s2 = (Ok tt, s3) ∧
    dict_keys (_cache s3) = [B; C] ∧
    get A default s3 = (Ok (inr default), s3).
Proof.
  intros HAB HAC HBC.
  exists (Build 2 [(A, va); (B, vb)] 0 0), (Build 2 [(B, vb); (C, vc)] 0 0).
  split_and!; try done.
  - cbn [run_all].
    erewrite bind_ok.
    2:{ apply fifo_set_absent_room; [by apply dict_contains_false|simpl; lia]. }
    erewrite bind_ok.
    2:{ apply fifo_set_absent_room; simpl; [|lia].
        apply dict_contains_false. simpl. by rewrite decide_False. }
    unfold ret. simpl. by rewrite decide_False.
  - erewrite fifo_set_absent_full; [|done| |simpl; lia].
    + simpl. by rewrite decide_False.
    + apply dict_contains_false. simpl. by rewrite !decide_False.
  - unfold get, gets. simpl. by rewrite !decide_False.
Qed.

(** C10. On a FIFOCache constructed with [maxsize] at most 0, the first
    [set] raises: the eviction step asks an empty dict for its first key
    ([StopIteration]). Nothing is inserted; the cache is as constructed. *)
Theorem fifo_nonpositive_maxsize_first_set_raises (maxsize : Z) key value :
  maxsize ≤ 0 →
  FIFOCache.set key value (__init__ maxsize) =
    (Raise StopIteration, __init__ maxsize).
Proof.
  intros Hm. unfold FIFOCache.set. rewrite bind_gets. unfold __len__.
  rewrite !bind_gets. simpl.
  by rewrite (proj2 (Z.leb_le _ _)) by done.
Qed.
End fifo_claims.

Section lookup_claims.
Context {K : Type} `{Countable K} {V : Type}.

(** C6 (amended). A failed lookup changes no part of the cache but the
    miss counter. In an LRUCache both forms count the miss and leave
    everything else (mapping, store of entries, head, full flag,
    [maxsize], [hits]) as it was, [get] returning the default and
    [__getitem__] raising [KeyError]. In a FIFOCache [get] returns the
    default and changes nothing at all; [__getitem__] raises [KeyError],
    counts the miss and leaves the mapping and [maxsize] as they were. *)
Theorem failed_lookup_only_counts
    (s : LRUCache.t K V) (f : FIFOCache.t K V) (key : K) {D} (default : D) :
  LRUCache._cache s !! key = None →
  FIFOCache.dict_get key (FIFOCache._cache f) = None →
  LRUCache.get key default s =
    (Ok (inr default), LRUCache.with_misses (LRUCache.misses s + 1) s) ∧
  LRUCache.__getitem__ key s =
    (Raise (KeyError key), LRUCache.with_misses (LRUCache.misses s + 1) s) ∧
  FIFOCache.get key default f = (Ok (inr default), f) ∧
  ∃ f', FIFOCache.__getitem__ key f = (Raise (KeyError key), f') ∧
    FIFOCache._cache f' = FIFOCache._cache f ∧
    FIFOCache._maxsize f' = FIFOCache._maxsize f ∧
    FIFOCache.misses f' = FIFOCache.misses f + 1.
Proof.
  intros Hs Hf. split_and!.
  - by apply lru_get_absent.
  - by apply lru_getitem_absent.
  - unfold FIFOCache.get, gets. by rewrite Hf.
  - eexists. split; [by apply fifo_getitem_absent|done].
Qed.
End lookup_claims.


(** ** The scenarios of the specification, and instances of the properties *)

Section scenarios.
Local Open Scope string_scope.
Local Open Scope Z_scope.

(** C3. [LRUCache(maxsize=2)]; [set("a", 1)]; [set("b", 2)]; [get("a")]
    returns 1 and leaves [hits = 1]; [set("c", 3)] then evicts ["b"], the
    least recently used key since the lookup promoted ["a"]: afterwards
    ["b"] is not in the cache, and ["a"] and ["c"] are. *)
Theorem lru_concrete_scenario :
  ∃ s1 s2 s3 s4 : LRUCache.t string Z,
    LRUCache.set "a" 1 (LRUCache.__init__ 2) = (Ok tt, s1) ∧
    LRUCache.set "b" 2 s1 = (Ok tt, s2) ∧
    LRUCache.get "a" tt s2 = (Ok (inl 1), s3) ∧
    LRUCache.hits s3 = 1 ∧
    LRUCache.__contains__ "b" s3 = (Ok true, s3) ∧
    LRUCache.set "c" 3 s3 = (Ok tt, s4) ∧
    LRUCache.__contains__ "b" s4 = (Ok false, s4) ∧
    LRUCache.__contains__ "a" s4 = (Ok true, s4) ∧
    LRUCache.__contains__ "c" s4 = (Ok true, s4) ∧
    LRUCache.__len__ s4 = (Ok 2, s4).
Proof.
  do 4 eexists. split_and!; vm_compute; reflexivity.
Qed.

(** C1 at [maxsize = 2] and the three sets of keys ["a"], ["b"], ["c"]. *)
Lemma capacity_invariant_witness :
  0 < 2 ∧ NoDup ["a"; "b"; "c"] ∧
  (∃ s : LRUCache.t string Z,
     run_all (set_calls (take 3 [("a", 1); ("b", 2); ("c", 3)]))
       (LRUCache.__init__ 2) = (Ok tt, s) ∧
     LRUCache._maxsize s = 2 ∧
     Z.of_nat (size (LRUCache._cache s)) ≤ 2) ∧
  (∃ s : FIFOCache.t string Z,
     run_all (fifo_set_calls (take 3 [("a", 1); ("b", 2); ("c", 3)]))
       (FIFOCache.__init__ 2) = (Ok tt, s) ∧
     FIFOCache._maxsize s = 2 ∧
     Z.of_nat (length (FIFOCache._cache s)) ≤ 2).
Proof.
  assert (NoDup ["a"; "b"; "c"]) as Hnd by (by apply (bool_decide_unpack _)).
  split; [lia|]. split; [exact Hnd|].
  apply (capacity_invariant 2 [("a", 1); ("b", 2); ("c", 3)] 3); [lia|exact Hnd].
Defined.

(** C2 on the cache that holds ["a"]. *)
Lemma lru_set_present_noop_witness :
  is_Some (LRUCache._cache (LRUCache.set "a" 1 (LRUCache.__init__ 2)).2 !! "a") ∧
  LRUCache.set "a" 5 (LRUCache.set "a" 1 (LRUCache.__init__ 2)).2 =
    (Ok tt, (LRUCache.set "a" 1 (LRUCache.__init__ 2)).2).
Proof.
  assert (is_Some (LRUCache._cache
    (LRUCache.set "a" 1 (LRUCache.__init__ (V:=Z) 2)).2 !! "a")) as Hp.
  { exists 0%nat. vm_compute. reflexivity. }
  split; [exact Hp|]. apply lru_set_present_noop. exact Hp.
Defined.

(** C4, as stated, fails: assigning to the public [maxsize] property
    lowers the capacity of a cache from 2 to 1. *)
Lemma lru_maxsize_assignment_shrinks :
  LRUCache._maxsize
    (LRUCache.set_maxsize 1 (LRUCache.__init__ (K:=string) (V:=Z) 2)).2
  < LRUCache._maxsize (LRUCache.__init__ (K:=string) (V:=Z) 2).
Proof. simpl. lia. Qed.

(** C4 (amended) on a new cache of capacity 2: [grow(1)] and [grow(5)]. *)
Lemma lru_maxsize_grows_witness :
  LRUCache._maxsize (LRUCache.grow 1 (LRUCache.__init__ (K:=string) (V:=Z) 2)).2 = 2 ∧
  LRUCache._maxsize (LRUCache.grow 5 (LRUCache.__init__ (K:=string) (V:=Z) 2)).2 = 5.
Proof.
  destruct (lru_maxsize_grows_except_by_assignment
              (LRUCache.__init__ (K:=string) (V:=Z) 2)) as (_ & H1 & H2 & _).
  split; [apply (H1 1)|apply (H2 5)]; simpl; lia.
Defined.

(** C5 on a new cache. *)
Lemma fifo_getitem_absent_counts_both_witness :
  FIFOCache.dict_get "a" (FIFOCache._cache (FIFOCache.__init__ (V:=Z) 2)) = None ∧
  FIFOCache.__getitem__ "a" (FIFOCache.__init__ (V:=Z) 2) =
    (Raise (KeyError "a"), FIFOCache.Build 2 [] 1 1).
Proof.
  split; [reflexivity|].
  apply (fifo_getitem_absent_counts_both (FIFOCache.__init__ 2) "a"). reflexivity.
Defined.

(** C6, as stated, fails: a failed [get] on a new LRUCache changes the
    state (it counts the miss). *)
Lemma failed_lookup_changes_misses :
  LRUCache._cache (LRUCache.__init__ (V:=Z) 2) !! "a" = None ∧
  (LRUCache.get "a" tt (LRUCache.__init__ (V:=Z) 2)).2 ≠ LRUCache.__init__ 2 ∧
  LRUCache.misses (LRUCache.get "a" tt (LRUCache.__init__ (V:=Z) 2)).2 = 1.
Proof. split_and!; [done| |done]. intros Heq. by apply (f_equal LRUCache.misses) in Heq. Qed.

(** C6 (amended) on new caches. *)
Lemma failed_lookup_only_counts_witness :
  LRUCache._cache (LRUCache.__init__ (V:=Z) 2) !! "a" = None ∧
  FIFOCache.dict_get "a" (FIFOCache._cache (FIFOCache.__init__ (V:=Z) 2)) = None ∧
  LRUCache.get "a" tt (LRUCache.__init__ (V:=Z) 2) =
    (Ok (inr tt), LRUCache.with_misses 1 (LRUCache.__init__ 2)).
Proof.
  split; [reflexivity|]. split; [reflexivity|].
  apply (failed_lookup_only_counts (LRUCache.__init__ 2) (FIFOCache.__init__ 2) "a" tt);
    reflexivity.
Defined.

(** C7 on a cache of capacity 1 that is full. *)
Lemma fifo_set_present_overwrites_witness :
  FIFOCache.dict_contains "a" (FIFOCache._cache (FIFOCache.Build 1 [("a", 1)] 0 0)) = true ∧
  ∃ s', FIFOCache.set "a" 7 (FIFOCache.Build 1 [("a", 1)] 0 0) = (Ok tt, s') ∧
    FIFOCache.dict_keys (FIFOCache._cache s') = ["a"] ∧
    FIFOCache.dict_get "a" (FIFOCache._cache s') = Some 7.
Proof.
  split; [reflexivity|].
  destruct (fifo_set_present_overwrites (FIFOCache.Build 1 [("a", 1)] 0 0) "a" 7)
    as (s' & Hs & Hk & Hg & _); [reflexivity|].
  exists s'. split; [exact Hs|]. split; [exact Hk|exact Hg].
Defined.

(** C8 with the keys ["a"], ["b"], ["c"]. *)
Lemma fifo_evicts_oldest_witness :
  "a" ≠ "b" ∧ "a" ≠ "c" ∧ "b" ≠ "c" ∧
  ∃ s2 s3 : FIFOCache.t string Z,
    run_all [FIFOCache.set "a" 1; FIFOCache.set "b" 2] (FIFOCache.__init__ 2)
      = (Ok tt, s2) ∧
    FIFOCache.dict_keys (FIFOCache._cache s2) = ["a"; "b"] ∧
    FIFOCache.set "c" 3 s2 = (Ok tt, s3) ∧
    FIFOCache.dict_keys (FIFOCache._cache s3) = ["b"; "c"] ∧
    FIFOCache.get "a" 0 s3 = (Ok (inr 0), s3).
Proof.
  assert ("a" ≠ "b") as Hab by discriminate.
  assert ("a" ≠ "c") as Hac by discriminate.
  assert ("b" ≠ "c") as Hbc by discriminate.
  split; [exact Hab|]. split; [exact Hac|]. split; [exact Hbc|].
  apply (fifo_evicts_oldest "a" "b" "c" 1 2 3 0 Hab Hac Hbc).
Defined.

(** C9 on the cache that holds ["b"] before ["a"] with [maxsize] set to 1
    under them: ["b"], the head, looked up three times. *)
Lemma lru_lookup_head_idempotent_witness :
  lru_state ex_lru_shrunk ∧
  keyf (LRUCache.store ex_lru_shrunk) (LRUCache._head ex_lru_shrunk) = Some "b" ∧
  Forall (is_lookup_of (V:=Z) "b") [CallGet "b"; CallGetitem "b"; CallGet "b"] ∧
  recency ex_lru_shrunk = [("b", 2); ("a", 1)] ∧
  exec (call <$> [CallGet "b"; CallGetitem "b"; CallGet "b"]) ex_lru_shrunk =
    LRUCache.with_hits 3 ex_lru_shrunk ∧
  run_all (call <$> [CallGet "b"; CallGetitem "b"; CallGet "b"]) ex_lru_shrunk =
    (Ok tt, LRUCache.with_hits 3 ex_lru_shrunk).
Proof.
  assert (lru_state ex_lru_shrunk) as Hst.
  { apply lru_state_assign, lru_state_call, lru_state_call, lru_state_init. }
  assert (Forall (is_lookup_of (V:=Z) "b") [CallGet "b"; CallGetitem "b"; CallGet "b"]) as Hcs.
  { repeat constructor; by right. }
  split; [exact Hst|]. split; [reflexivity|]. split; [exact Hcs|].
  split; [reflexivity|].
  destruct (lru_lookup_head_idempotent _ "b" _ Hst eq_refl Hcs) as [Hexec Hrun].
  split; [exact Hexec|]. apply Hrun. by eexists.
Defined.

(** The state in which lookups of the head's key miss: [LRUCache(0)]
    after [set("a", 1)] has ["a"] in its head entry and an empty mapping. *)
Example lru_evicted_head_lookups_miss :
  lru_state (LRUCache.set "a" 1 (LRUCache.__init__ (V:=Z) 0)).2 ∧
  keyf (LRUCache.store (LRUCache.set "a" 1 (LRUCache.__init__ (V:=Z) 0)).2)
       (LRUCache._head (LRUCache.set "a" 1 (LRUCache.__init__ (V:=Z) 0)).2)
    = Some "a" ∧
  LRUCache._cache (LRUCache.set "a" 1 (LRUCache.__init__ (V:=Z) 0)).2 !! "a"
    = None ∧
  call (CallGet "a") (LRUCache.set "a" 1 (LRUCache.__init__ (V:=Z) 0)).2 =
    (Ok tt,
     LRUCache.with_misses 1 (LRUCache.set "a" 1 (LRUCache.__init__ (V:=Z) 0)).2) ∧
  call (CallGetitem "a") (LRUCache.set "a" 1 (LRUCache.__init__ (V:=Z) 0)).2 =
    (Raise (KeyError "a"),
     LRUCache.with_misses 1 (LRUCache.set "a" 1 (LRUCache.__init__ (V:=Z) 0)).2).
Proof.
  split; [exact (lru_state_call _ (CallSet "a" 1) (lru_state_init 0))|].
  split_and!; vm_compute; reflexivity.
Qed.

(** C10 at [maxsize = 0]. *)
Lemma fifo_nonpositive_maxsize_first_set_raises_witness :
  0 ≤ 0 ∧
  FIFOCache.set "a" 1 (FIFOCache.__init__ 0) =
    (Raise StopIteration, FIFOCache.__init__ 0).
Proof.
  split; [lia|].
  apply (fifo_nonpositive_maxsize_first_set_raises 0 "a" 1). lia.
Defined.
End scenarios.

(** ** The ring read from the head *)

Section recency_facts.
Context {K : Type} `{Countable K} {V : Type}.
Import LRUCache.
Implicit Types (st : list (option (link K V))) (l : list addr) (a x : addr)
  (s : LRUCache.t K V).

Lemma entries_cons st a l :
  entries st (a :: l) =
  match entry_at st a with
  | Some e => e :: entries st l
  | None => entries st l
  end.
Proof. done. Qed.

Lemma entries_cons_Some st a l e :
  entry_at st a = Some e → entries st (a :: l) = e :: entries st l.
Proof. intros He. by rewrite entries_cons, He. Qed.

Lemma entries_app st l1 l2 :
  entries st (l1 ++ l2) = entries st l1 ++ entries st l2.
Proof.
  induction l1 as [|a l1 IH]; [done|].
  rewrite <-app_comm_cons, !entries_cons, IH. by destruct (entry_at st a).
Qed.

Lemma entries_ext st st' l :
  (∀ x, x ∈ l → entry_at st' x = entry_at st x) → entries st' l = entries st l.
Proof.
  induction l as [|a l IH]; intros Hsame; [done|].
  rewrite !entries_cons, Hsame by left.
  rewrite IH; [done|]. intros x Hx. apply Hsame. by right.
Qed.

Lemma entry_at_live st a : is_Some (deref st a) → is_Some (entry_at st a).
Proof. intros [lk Ha]. unfold entry_at. rewrite Ha. by eexists. Qed.

Lemma entry_at_key st a e : entry_at st a = Some e → keyf st a = Some e.1.
Proof.
  unfold entry_at, keyf. destruct (deref st a); simpl; [|done]. by intros [= <-].
Qed.

Lemma entry_at_value st a e : entry_at st a = Some e → valf st a = Some e.2.
Proof.
  unfold entry_at, valf. destruct (deref st a); simpl; [|done]. by intros [= <-].
Qed.

Lemma length_entries st l :
  (∀ x, x ∈ l → is_Some (deref st x)) → length (entries st l) = length l.
Proof.
  induction l as [|a l IH]; intros Hlive; [done|].
  destruct (entry_at_live st a) as [e He]; [apply Hlive; left|].
  rewrite (entries_cons_Some _ _ _ e He). simpl. rewrite IH; [done|].
  intros x Hx. apply Hlive. by right.
Qed.

Lemma elem_of_entries_keys st l k :
  k ∈ (entries st l).*1 ↔ ∃ a, a ∈ l ∧ keyf st a = Some k.
Proof.
  induction l as [|a l IH].
  - split; [by intros ?%elem_of_nil|by intros (? & ?%elem_of_nil & _)].
  - rewrite entries_cons. destruct (entry_at st a) as [e|] eqn:He.
    + rewrite fmap_cons, elem_of_cons, IH. apply entry_at_key in He. split.
      * intros [->|(b & Hb & Hkb)]; [exists a; split; [left|done]|].
        exists b. split; [by right|done].
      * intros (b & [->|Hb]%elem_of_cons & Hkb); [left; congruence|].
        right. by exists b.
    + rewrite IH. split.
      * intros (b & Hb & Hkb). exists b. split; [by right|done].
      * intros (b & [->|Hb]%elem_of_cons & Hkb); [|by exists b].
        unfold entry_at in He. unfold keyf in Hkb.
        by destruct (deref st a).
Qed.

Lemma entries_split st l (p1 p2 : list (K * V)) (e : K * V) :
  (∀ x, x ∈ l → is_Some (deref st x)) →
  entries st l = p1 ++ e :: p2 →
  ∃ r1 a r2, l = r1 ++ a :: r2 ∧ entries st r1 = p1 ∧
    entry_at st a = Some e ∧ entries st r2 = p2.
Proof.
  revert p1. induction l as [|b l IH]; intros p1 Hlive Hl.
  - by destruct p1.
  - destruct (entry_at_live st b) as [eb Heb]; [apply Hlive; left|].
    rewrite (entries_cons_Some _ _ _ eb Heb) in Hl.
    destruct p1 as [|e1 p1]; simpl in Hl; simplify_eq.
    + by exists [], b, l.
    + destruct (IH p1) as (r1 & a & r2 & -> & Hr1 & Ha & Hr2); [|done|].
      { intros x Hx. apply Hlive. by right. }
      exists (b :: r1), a, r2. split; [done|].
      by rewrite (entries_cons_Some _ _ _ e1 Heb), Hr1.
Qed.

Lemma NoDup_entries_keys st l :
  NoDup l → (∀ x y, x ∈ l → y ∈ l → is_Some (keyf st x) → keyf st x = keyf st y → x = y) →
  NoDup (entries st l).*1.
Proof.
  induction l as [|a l IH]; intros Hnd Hinj; [constructor|].
  apply NoDup_cons in Hnd as [Ha Hnd].
  assert (NoDup (entries st l).*1) as IH'.
  { apply IH; [done|]. intros x y Hx Hy. apply Hinj; by right. }
  rewrite entries_cons. destruct (entry_at st a) as [e|] eqn:He; [|done].
  rewrite fmap_cons. apply NoDup_cons. split; [|done].
  intros (b & Hb & Hkb)%elem_of_entries_keys. apply Ha.
  apply entry_at_key in He.
  rewrite (Hinj a b); [done|left|by right|by rewrite He|congruence].
Qed.

(** Walking [NEXT] from an entry of the ring reads the rest of the ring. *)
Lemma walk_ring st pre a suf :
  ring_ok st (pre ++ a :: suf) →
  walk st a (S (length suf)) = entries st (a :: suf).
Proof.
  revert pre a. induction suf as [|b suf IH]; intros pre a Hring.
  - destruct (ring_ok_live st _ a Hring) as [lk Ha].
    { apply elem_of_app. right. left. }
    rewrite (entries_cons_Some _ _ _ (KEY lk, VALUE lk))
      by (unfold entry_at; by rewrite Ha).
    simpl. by rewrite Ha.
  - destruct (ring_ok_live st _ a Hring) as [lk Ha].
    { apply elem_of_app. right. left. }
    assert (nextf st a = Some b) as Hn.
    { destruct Hring as [_ Hedge]. apply (Hedge a b). left.
      apply adj_app. right. left. simpl. by left. }
    unfold nextf in Hn. rewrite Ha in Hn. simpl in Hn. simplify_eq.
    change (walk st a (S (length (NEXT lk :: suf)))) with
      (match deref st a with
       | Some lk' => (KEY lk', VALUE lk') :: walk st (NEXT lk') (S (length suf))
       | None => []
       end).
    rewrite Ha. rewrite (IH (pre ++ [a])); [|by rewrite <-app_assoc].
    symmetry. apply entries_cons_Some. unfold entry_at. by rewrite Ha.
Qed.

Lemma recency_ring s ring : lru_inv s ring → recency s = entries (store s) ring.
Proof.
  intros Hinv. unfold recency. rewrite (inv_size _ _ Hinv).
  destruct ring as [|h m]; [done|].
  pose proof (inv_head _ _ Hinv) as Hh. simpl in Hh. subst h.
  apply (walk_ring _ []), Hinv.
Qed.

Lemma lru_inv_live s ring x : lru_inv s ring → x ∈ ring → is_Some (deref (store s) x).
Proof. intros Hinv. eapply ring_ok_live, Hinv. Qed.

Lemma lru_inv_mem s ring k :
  lru_inv s ring → is_Some (_cache s !! k) ↔ k ∈ (entries (store s) ring).*1.
Proof.
  intros Hinv. rewrite elem_of_entries_keys. split.
  - intros [a Ha]. exists a. by apply (inv_cache _ _ Hinv).
  - intros (a & Ha & Hk). exists a. by apply (inv_cache _ _ Hinv).
Qed.
End recency_facts.

(** ** LRUCache as a list of pairs in recency order *)

Section lru_recency.
Context {K : Type} `{Countable K} {V : Type}.
Import LRUCache.
Implicit Types (s : LRUCache.t K V) (key k : K) (value v : V)
  (p : list (K * V)).

Lemma lru_inv_NoDup_keys s ring :
  lru_inv s ring → NoDup (entries (store s) ring).*1.
Proof.
  intros Hinv. apply NoDup_entries_keys; [apply Hinv|].
  intros x y Hx Hy [k Hk] Hxy.
  assert (_cache s !! k = Some x) as Hcx by (by apply (inv_cache _ _ Hinv)).
  assert (_cache s !! k = Some y) as Hcy.
  { apply (inv_cache _ _ Hinv). split; [done|congruence]. }
  congruence.
Qed.

Lemma wf_length_recency s : wf s → length (recency s) = size (_cache s).
Proof.
  intros [ring Hinv]. rewrite (recency_ring _ _ Hinv), (inv_size _ _ Hinv).
  apply length_entries. intros x. by apply lru_inv_live.
Qed.

Lemma wf_mem_recency s k : wf s → is_Some (_cache s !! k) ↔ k ∈ (recency s).*1.
Proof. intros [ring Hinv]. rewrite (recency_ring _ _ Hinv). by apply lru_inv_mem. Qed.

Lemma recency_with_hits s z : recency (with_hits z s) = recency s.
Proof. done. Qed.
Lemma recency_with_misses s z : recency (with_misses z s) = recency s.
Proof. done. Qed.
Lemma recency_with_maxsize s z : recency (with_maxsize z s) = recency s.
Proof. done. Qed.

(** [set] of a new key, on the list of pairs. *)
Lemma lru_set_new_recency s key value :
  wf s → _cache s !! key = None →
  ∃ s', LRUCache.set key value s = (Ok tt, s') ∧ wf s' ∧
    (if _full s || (_maxsize s <? Z.of_nat (S (size (_cache s))))
     then (∃ p kv, recency s = p ++ [kv] ∧ recency s' = (key, value) :: p) ∧
          _full s' = true
     else recency s' = (key, value) :: recency s ∧ _full s' = false) ∧
    (_cache s' !! key = Some (_head s') ∧
     valf (store s') (_head s') = Some value) ∧
    _maxsize s' = _maxsize s ∧ hits s' = hits s ∧ misses s' = misses s.
Proof.
  intros [ring Hinv] Hk. rewrite (recency_ring _ _ Hinv).
  destruct ring as [|h m0].
  - destruct (set_absent_empty_ring s key value Hinv Hk)
      as (s' & Hset & Hinv' & [Hent Hfull'] & Hms & Hhi & Hmi).
    exists s'. split; [done|]. split; [by eexists|].
    pose proof (inv_head _ _ Hinv') as Hh'. simpl in Hh'.
    assert (_full s = false) as ->.
    { destruct (_full s) eqn:Hf; [|done]. by destruct (inv_full _ _ Hinv). }
    rewrite (inv_size _ _ Hinv).
    rewrite (proj2 (Z.ltb_ge _ _)).
    2:{ pose proof (inv_maxsize _ _ Hinv). simpl. lia. }
    simpl orb. cbv iota. rewrite (recency_ring _ _ Hinv'), <-Hh'.
    split_and!; try done.
    + by rewrite (entries_cons_Some _ _ _ _ Hent).
    + apply (inv_cache _ _ Hinv'). split; [left|]. by apply entry_at_key in Hent.
    + by apply entry_at_value in Hent.
  - destruct (set_absent_nonempty_ring s h m0 key value Hinv Hk)
      as (s' & ring' & Hset & Hinv' & Hcase & Hent & Hold & Hms & Hhi & Hmi).
    exists s'. split; [done|]. split; [by eexists|].
    pose proof (inv_head _ _ Hinv') as Hh'. simpl in Hh'.
    rewrite (recency_ring _ _ Hinv'), (entries_cons_Some _ _ _ _ Hent), <-Hh'.
    split_and!; try done.
    + destruct (_full s || _).
      * destruct Hcase as [[lst Hlst] Hfull']. split; [|done].
        destruct (entry_at_live (store s) lst) as [e He].
        { eapply lru_inv_live; [done|]. rewrite Hlst. apply elem_of_app. right. left. }
        exists (entries (store s) ring'), e. rewrite Hlst, entries_app.
        rewrite (entries_cons_Some _ _ _ _ He). split; [done|]. f_equal.
        apply entries_ext. intros x Hx. apply Hold. rewrite Hlst.
        apply elem_of_app. by left.
      * destruct Hcase as [-> Hfull']. split; [|done]. f_equal.
        by apply entries_ext.
    + apply (inv_cache _ _ Hinv'). split; [left|]. by apply entry_at_key in Hent.
    + by apply entry_at_value in Hent.
Qed.

(** A lookup of a cached key, on the list of pairs. *)
Lemma lru_promote_recency s k v p1 p2 :
  wf s → recency s = p1 ++ (k, v) :: p2 →
  ∃ s1 link, _cache s !! k = Some link ∧ promote link s = (Ok tt, s1) ∧
    valf (store s1) link = Some v ∧ recency s1 = (k, v) :: p1 ++ p2 ∧ wf s1 ∧
    _cache s1 = _cache s ∧ hits s1 = hits s ∧ misses s1 = misses s ∧
    _maxsize s1 = _maxsize s ∧ _full s1 = _full s.
Proof.
  intros [ring Hinv] Hrec. rewrite (recency_ring _ _ Hinv) in Hrec.
  apply entries_split in Hrec as (r1 & a & r2 & -> & Hr1 & Ha & Hr2).
  2:{ intros x. by apply lru_inv_live. }
  assert (_cache s !! k = Some a) as Hk.
  { apply (inv_cache _ _ Hinv). split; [apply elem_of_app; right; left|].
    by apply entry_at_key in Ha. }
  pose proof (inv_head _ _ Hinv) as Hh.
  destruct r1 as [|h m1]; simpl in Hh.
  - subst a. exists s, (_head s). split; [done|]. split; [apply lru_promote_head|].
    split; [by apply entry_at_value in Ha|].
    split; [|split; [by eexists|done]].
    rewrite (recency_ring _ _ Hinv). simpl in *. subst p1 p2.
    by apply entries_cons_Some.
  - subst h. destruct (promote_inv_ring _ _ _ _ _ Hinv) as (st' & Hp & Hinv' & Hv & Hsame).
    eexists _, a. split; [done|]. split; [exact Hp|].
    split; [simpl; rewrite Hv; by apply entry_at_value in Ha|].
    split; [|split; [by eexists|by destruct s]].
    rewrite (recency_ring _ _ Hinv'). simpl store.
    rewrite (entries_ext (store s)) by (intros; apply Hsame).
    rewrite (entries_cons_Some _ _ _ _ Ha). f_equal.
    rewrite app_comm_cons, entries_app. by rewrite Hr1, Hr2.
Qed.

Lemma lru_get_present_recency {D} s k v p1 p2 (d : D) :
  wf s → recency s = p1 ++ (k, v) :: p2 →
  ∃ s', get k d s = (Ok (inl v), s') ∧ __getitem__ k s = (Ok v, s') ∧
    recency s' = (k, v) :: p1 ++ p2 ∧ wf s' ∧
    _cache s' = _cache s ∧ hits s' = hits s + 1 ∧ misses s' = misses s ∧
    _maxsize s' = _maxsize s ∧ _full s' = _full s.
Proof.
  intros Hwf Hrec.
  destruct (lru_promote_recency s k v p1 p2 Hwf Hrec)
    as (s1 & link & Hk & Hp & Hv & Hrec1 & [ring1 Hinv1] & Hc & Hh & Hm & Hms & Hf).
  exists (with_hits (hits s1 + 1) s1). split_and!.
  - unfold get. rewrite bind_gets, Hk. erewrite bind_ok by exact Hp.
    rewrite bind_modify. by erewrite bind_ok by (by apply item3_ok).
  - unfold __getitem__. rewrite bind_gets, Hk. erewrite bind_ok by exact Hp.
    rewrite bind_modify. by apply item3_ok.
  - by rewrite recency_with_hits.
  - exists ring1. by apply lru_inv_with_hits.
  - done.
  - simpl. by rewrite Hh.
  - done.
  - done.
  - done.
Qed.
End lru_recency.

(** ** No method of LRUCache other than [clear] resets the full flag *)

Section lru_full_flag.
Context {K : Type} `{Countable K} {V : Type}.
Import LRUCache.
Implicit Types (s : LRUCache.t K V) (key : K) (value : V).
Local Abbreviation Meth := (M K (LRUCache.t K V)).









End lru_full_flag.

(** ** Further properties of LRUCache *)

Section lru_more.
Context {K : Type} `{Countable K} {V : Type}.
Import LRUCache.
Implicit Types (s : LRUCache.t K V) (key k : K) (value v : V)
  (p : list (K * V)).

(** X1. In a well-formed cache the ring read from the head lists each
    cached key once, and the read-only methods report it: [__len__] its
    length, [__contains__] membership of a key in it, [keys] its keys. *)
Theorem lru_recency_represents s :
  wf s →
  NoDup (recency s).*1 ∧
  __len__ s = (Ok (Z.of_nat (length (recency s))), s) ∧
  (∀ k, __contains__ k s = (Ok (bool_decide (k ∈ (recency s).*1)), s)) ∧
  keys s = (Ok (list_to_set (recency s).*1), s).
Proof.
  intros Hwf. split_and!.
  - destruct Hwf as [ring Hinv]. rewrite (recency_ring _ _ Hinv).
    by apply lru_inv_NoDup_keys.
  - unfold __len__, gets. by rewrite wf_length_recency.
  - intros k. unfold __contains__, gets. f_equal. f_equal.
    apply bool_decide_ext. by apply wf_mem_recency.
  - unfold keys, gets. f_equal. f_equal. apply set_eq. intros k.
    rewrite elem_of_dom, elem_of_list_to_set. by apply wf_mem_recency.
Qed.

(** X2. [set] of a new key while the cache has never been full and has
    room puts the pair in front; everything cached before stays, in the
    same order. *)
Theorem lru_set_new_key_with_room s key value :
  wf s → _cache s !! key = None →
  _full s = false → Z.of_nat (size (_cache s)) < _maxsize s →
  ∃ s', LRUCache.set key value s = (Ok tt, s') ∧
    recency s' = (key, value) :: recency s ∧
    wf s' ∧ _full s' = false ∧ _maxsize s' = _maxsize s.
Proof.
  intros Hwf Hk Hf Hroom.
  destruct (lru_set_new_recency s key value Hwf Hk)
    as (s' & Hset & Hwf' & Hcase & _ & Hms & _).
  rewrite Hf, (proj2 (Z.ltb_ge _ _)) in Hcase by lia.
  destruct Hcase as [Hrec Hf']. by exists s'.
Qed.


(** X4. A lookup of a cached key, by [get] or by [__getitem__], returns
    its value and moves its pair to the front of the recency order; the
    other pairs keep their order, the mapping is unchanged, and one hit is
    counted. *)
Theorem lru_lookup_promotes {D} s k v p1 p2 (default : D) :
  wf s → recency s = p1 ++ (k, v) :: p2 →
  ∃ s', get k default s = (Ok (inl v), s') ∧ __getitem__ k s = (Ok v, s') ∧
    recency s' = (k, v) :: p1 ++ p2 ∧ wf s' ∧
    _cache s' = _cache s ∧ hits s' = hits s + 1 ∧ misses s' = misses s ∧
    _maxsize s' = _maxsize s ∧ _full s' = _full s.
Proof. apply lru_get_present_recency. Qed.

(** X5. Round trip: after [set] of a key that was not cached, in a
    well-formed cache, a lookup of the key by either form returns the value
    just stored (the new entry is never the one evicted). *)
Theorem lru_set_then_get {D} s key value (default : D) :
  wf s → _cache s !! key = None →
  ∃ s' s'', LRUCache.set key value s = (Ok tt, s') ∧
    get key default s' = (Ok (inl value), s'') ∧
    __getitem__ key s' = (Ok value, s'').
Proof.
  intros Hwf Hk.
  destruct (lru_set_new_recency s key value Hwf Hk)
    as (s' & Hset & _ & _ & [Hk' Hv'] & _).
  exists s', (with_hits (hits s' + 1) s'). split; [done|].
  split; [by apply lru_get_head|by apply lru_getitem_head].
Qed.



(** X8. [clear] on any state with a positive [maxsize], well-formed or
    not, returns and leaves a well-formed empty cache that is not marked
    full; the counters and [maxsize] keep their values. *)
Theorem lru_clear_resets s :
  0 < _maxsize s →
  ∃ s', clear s = (Ok tt, s') ∧ wf s' ∧
    _cache s' = ∅ ∧ recency s' = [] ∧ _full s' = false ∧
    hits s' = hits s ∧ misses s' = misses s ∧ _maxsize s' = _maxsize s.
Proof.
  intros Hm. unfold clear. rewrite !bind_modify. unfold new_list.
  erewrite bind_ok by reflexivity. eexists. split; [reflexivity|].
  split; [|done]. exists []. split; simpl; try done.
  - apply ring_ok_nil.
  - rewrite deref_snoc, decide_True by done. split; [done|].
    rewrite length_app. simpl. lia.
  - intros k a. rewrite lookup_empty, elem_of_nil. split; [done|by intros []].
  - lia.
Qed.
End lru_more.

(** ** Counters and histories of LRUCache *)

Section lru_histories.
Context {K : Type} `{Countable K} {V : Type}.
Import LRUCache.
Implicit Types (s : LRUCache.t K V) (key k : K) (value v : V)
  (p : list (K * V)).
Local Abbreviation Meth := (M K (LRUCache.t K V)).

(** One [get], counted. *)
Lemma lru_get_counts s k :
  wf s →
  ∃ s', call (CallGet k) s = (Ok tt, s') ∧ wf s' ∧ _cache s' = _cache s ∧
    hits s' = hits s + Z.of_nat (count_present (_cache s) [k]) ∧
    misses s' = misses s + Z.of_nat (1 - count_present (_cache s) [k]).
Proof.
  intros Hwf. unfold count_present. rewrite filter_cons, filter_nil.
  destruct (_cache s !! k) as [link|] eqn:Hk.
  - rewrite decide_True by done.
    assert (k ∈ (recency s).*1) as Hin by (by apply wf_mem_recency).
    apply list_elem_of_fmap in Hin as ([k' v] & -> & Hin).
    apply list_elem_of_split in Hin as (p1 & p2 & Hrec).
    destruct (lru_get_present_recency s k' v p1 p2 tt Hwf Hrec)
      as (s' & Hget & _ & _ & Hwf' & Hc & Hh & Hm & _).
    exists s'. split; [|split_and!; try done; simpl; lia].
    simpl. by erewrite bind_ok by exact Hget.
  - rewrite decide_False by (by intros [? ?]).
    exists (with_misses (misses s + 1) s). split; [|split_and!; try done].
    + simpl. by erewrite bind_ok by (by apply lru_get_absent).
    + destruct Hwf as [ring Hinv]. exists ring. by apply lru_inv_with_misses.
    + simpl. lia.
Qed.

Lemma count_present_cons (c : gmap K addr) k ks :
  count_present c (k :: ks) = (count_present c [k] + count_present c ks)%nat.
Proof.
  unfold count_present. rewrite !filter_cons, filter_nil.
  by destruct (decide (is_Some (c !! k))).
Qed.

Lemma count_present_le (c : gmap K addr) ks : (count_present c ks ≤ length ks)%nat.
Proof. apply length_filter. Qed.

(** X9. Hit and miss accounting: any sequence of [get] calls on a
    well-formed cache returns, leaves the mapping as it was, and raises
    [hits] by the number of looked-up keys that are cached and [misses] by
    the number that are not. *)
Theorem lru_hit_miss_accounting s ks :
  wf s →
  ∃ s', run_all (get_calls ks) s = (Ok tt, s') ∧ wf s' ∧
    _cache s' = _cache s ∧
    hits s' = hits s + Z.of_nat (count_present (_cache s) ks) ∧
    misses s' = misses s + Z.of_nat (length ks - count_present (_cache s) ks).
Proof.
  revert s. induction ks as [|k ks IH]; intros s Hwf.
  - exists s. unfold count_present. rewrite filter_nil. simpl.
    split_and!; try done; lia.
  - destruct (lru_get_counts s k Hwf) as (s1 & Hget & Hwf1 & Hc1 & Hh1 & Hm1).
    destruct (IH s1 Hwf1) as (s' & Hrun & Hwf' & Hc' & Hh' & Hm').
    exists s'. split_and!; try done.
    + unfold get_calls. rewrite fmap_cons. cbn [run_all].
      by erewrite bind_ok by exact Hget.
    + congruence.
    + rewrite count_present_cons, Hh', Hh1, Hc1. lia.
    + rewrite count_present_cons, Hm', Hm1, Hc1.
      pose proof (count_present_le (_cache s) ks).
      pose proof (count_present_le (_cache s) [k]). simpl in *. lia.
Qed.

(** *** No method lowers a counter *)

Lemma cu_ret {A} (a : A) : counts_up (ret a : Meth A).
Proof. by intros s. Qed.
Lemma cu_raise {A} e : counts_up (raise e : Meth A).
Proof. by intros s. Qed.
Lemma cu_gets {A} (g : _ → A) : counts_up (gets g : Meth A).
Proof. by intros s. Qed.
Lemma cu_modify (g : LRUCache.t K V → LRUCache.t K V) :
  (∀ s, hits s ≤ hits (g s) ∧ misses s ≤ misses (g s)) →
  counts_up (modify g : Meth unit).
Proof. intros Hg s. apply Hg. Qed.
Lemma cu_bind {A B} (c : Meth A) (f : A → Meth B) :
  counts_up c → (∀ a, counts_up (f a)) → counts_up (bind c f).
Proof.
  intros Hc Hf s. unfold bind. specialize (Hc s).
  destruct (c s) as [[a|e] s']; simpl in *; [|done].
  specialize (Hf a s'). lia.
Qed.
Lemma cu_getitem_field {A} (g : link K V → A) a : counts_up (getitem_field g a).
Proof. intros s. unfold getitem_field. by destruct (deref _ _). Qed.
Lemma cu_setitem_with g a : counts_up (setitem_with (K:=K) (V:=V) g a).
Proof. intros s. unfold setitem_with. by destruct (deref _ _). Qed.
Lemma cu_new_list c : counts_up (new_list (K:=K) (V:=V) c).
Proof. by intros s. Qed.
Lemma cu_cache_delitem k : counts_up (cache_delitem (V:=V) k).
Proof. intros s. unfold cache_delitem. by destruct (_ !! _). Qed.

Ltac cu :=
  repeat first
    [ apply cu_ret | apply cu_raise | apply cu_gets
    | apply cu_getitem_field | apply cu_setitem_with
    | apply cu_new_list | apply cu_cache_delitem
    | apply cu_modify; intros []; simpl; lia
    | apply cu_bind; [|intros ?]
    | match goal with
      | |- counts_up (if ?b then _ else _) => destruct b
      | |- counts_up (match ?x with _ => _ end) => destruct x
      end ].

Lemma cu_set key value : counts_up (LRUCache.set key value).
Proof.
  unfold LRUCache.set, truthy, slice_assign, item0, item2, setitem0, setitem1, __len__.
  cu.
Qed.

Lemma cu_promote link : counts_up (promote (K:=K) (V:=V) link).
Proof. unfold promote, item0, item1, setitem0, setitem1. cu. Qed.

Lemma cu_call (c : @method K V) : counts_up (call c).
Proof.
  destruct c; simpl.
  - apply cu_set.
  - unfold get, item3. cu; apply cu_promote.
  - unfold __getitem__, item3. cu; apply cu_promote.
  - unfold __contains__. cu.
  - unfold grow, maxsize, set_maxsize. cu.
  - unfold clear. cu.
  - unfold __len__. cu.
  - unfold __bool__. cu.
  - unfold keys. cu.
Qed.

(** X10. [hits] and [misses] only ever increase: no call of a method, on
    any state, whether it returns or raises, leaves a counter lower than it
    found it. *)
Theorem lru_counters_never_decrease s (cs : list (@method K V)) :
  hits s ≤ hits (exec (call <$> cs) s) ∧ misses s ≤ misses (exec (call <$> cs) s).
Proof.
  revert s. induction cs as [|c cs IH]; intros s; [done|].
  rewrite fmap_cons. unfold exec. simpl. fold (exec (call <$> cs) (call c s).2).
  pose proof (cu_call c s). specialize (IH (call c s).2). lia.
Qed.

(** X11. The capacity invariant under any use: however a cache constructed
    with a positive [maxsize] is called (any mix of methods, failed indexed
    accesses included), it stays well-formed and never holds more than
    [maxsize] keys. *)
Theorem lru_reachable_capacity s :
  reachable s →
  wf s ∧ 0 < _maxsize s ∧ Z.of_nat (size (_cache s)) ≤ _maxsize s.
Proof.
  intros Hwf%reachable_wf. split; [done|]. destruct Hwf as [ring Hinv].
  split; [apply Hinv|]. rewrite (inv_size _ _ Hinv). apply Hinv.
Qed.
End lru_histories.

(** ** LRUCache from construction *)

Section lru_from_init.
Context {K : Type} `{Countable K} {V : Type}.
Import LRUCache.
Implicit Types (s : LRUCache.t K V) (key k : K) (value v : V)
  (p : list (K * V)).

Lemma take_snoc_length {A} (l p : list A) (x : A) (n : nat) :
  take n l = p ++ [x] → length (take n l) = n →
  p = take (n - 1) l.
Proof.
  intros Hp Hlen.
  assert (take (n - 1) l = take (n - 1) (take n l ++ drop n l)) as ->
    by (by rewrite take_drop).
  rewrite take_app_le by lia. rewrite Hp in Hlen |- *.
  rewrite length_app in Hlen. simpl in Hlen.
  rewrite take_app_le by lia. by rewrite take_ge by lia.
Qed.

Lemma lru_sets_recency (maxsize : Z) (kvs : list (K * V)) :
  0 < maxsize → NoDup kvs.*1 →
  ∃ s, run_all (set_calls kvs) (__init__ maxsize) = (Ok tt, s) ∧ wf s ∧
    _maxsize s = maxsize ∧
    recency s = take (Z.to_nat maxsize) (reverse kvs) ∧
    (_full s = true → (Z.to_nat maxsize ≤ length kvs)%nat).
Proof.
  intros Hm. induction kvs as [|[k v] pre IH] using rev_ind; intros Hnd.
  - exists (__init__ maxsize). split_and!; try done.
    + by apply lru_init_wf.
    + by destruct (Z.to_nat maxsize).
  - rewrite fmap_app in Hnd. apply NoDup_app in Hnd as (Hnd & Hnin & _).
    destruct (IH Hnd) as (s & Hrun & Hwf & Hms & Hrec & Hfull).
    assert (_cache s !! k = None) as Hk.
    { apply eq_None_not_Some. intros Hin%wf_mem_recency; [|done].
      rewrite Hrec in Hin. apply list_elem_of_fmap in Hin as (kv & -> & Hin).
      apply elem_of_take in Hin as (i & Hin%list_elem_of_lookup_2 & _).
      rewrite elem_of_reverse in Hin. apply (Hnin kv.1).
      - apply list_elem_of_fmap. by exists kv.
      - simpl. left. }
    destruct (lru_set_new_recency s k v Hwf Hk)
      as (s' & Hset & Hwf' & Hcase & _ & Hms' & _).
    pose proof (wf_length_recency s Hwf) as Hlen.
    rewrite Hrec, length_take, length_reverse in Hlen.
    exists s'. split; [|split; [done|split; [congruence|]]].
    { unfold set_calls. rewrite fmap_app. erewrite run_all_app by exact Hrun.
      simpl. by erewrite bind_ok by exact Hset. }
    rewrite reverse_snoc, length_app. simpl length.
    destruct (Z.to_nat maxsize) as [|M'] eqn:HM; [lia|]. simpl take.
    destruct (_full s || _) eqn:Hev.
    + destruct Hcase as [(p & kv & Hp & Hrec') Hf'].
      assert (S M' ≤ length pre)%nat as Hle.
      { apply orb_true_iff in Hev as [Hf|Hlt%Z.ltb_lt]; [by apply Hfull|]. lia. }
      split; [|intros _; lia].
      rewrite Hrec'. f_equal. rewrite Hrec in Hp.
      apply take_snoc_length in Hp; [|rewrite length_take, length_reverse; lia].
      rewrite Hp. f_equal. lia.
    + destruct Hcase as [Hrec' Hf']. split; [|congruence].
      apply orb_false_iff in Hev as [_ Hge%Z.ltb_ge].
      rewrite Hrec', Hrec. f_equal.
      rewrite !take_ge; [done|rewrite length_reverse; lia..].
Qed.

(** X12. A new cache of capacity [maxsize > 0] after [set] calls with
    pairwise distinct keys holds exactly the last [maxsize] pairs set (all
    of them if there are fewer), the latest first: they are the ring read
    from the head of a well-formed cache, whose mapping has exactly their
    keys, as [__len__] and [__contains__] report, and whose lookups return
    their values. *)
Theorem lru_keeps_last_inserted (maxsize : Z) (kvs : list (K * V)) :
  0 < maxsize → NoDup kvs.*1 →
  ∃ s, run_all (set_calls kvs) (__init__ maxsize) = (Ok tt, s) ∧
    wf s ∧ _maxsize s = maxsize ∧
    recency s = take (Z.to_nat maxsize) (reverse kvs) ∧
    dom (_cache s) = list_to_set (take (Z.to_nat maxsize) (reverse kvs)).*1 ∧
    __len__ s =
      (Ok (Z.of_nat (length (take (Z.to_nat maxsize) (reverse kvs)))), s) ∧
    (∀ k, __contains__ k s =
       (Ok (bool_decide (k ∈ (take (Z.to_nat maxsize) (reverse kvs)).*1)), s)) ∧
    (∀ k v, (k, v) ∈ take (Z.to_nat maxsize) (reverse kvs) →
       ∃ s', get k tt s = (Ok (inl v), s') ∧ __getitem__ k s = (Ok v, s')).
Proof.
  intros Hm Hnd.
  destruct (lru_sets_recency maxsize kvs Hm Hnd) as (s & Hrun & Hwf & Hms & Hrec & _).
  exists s. rewrite <-Hrec. split_and!; try done.
  - apply set_eq. intros k.
    rewrite elem_of_dom, elem_of_list_to_set. by apply wf_mem_recency.
  - unfold __len__, gets. by rewrite wf_length_recency.
  - intros k. unfold __contains__, gets. f_equal. f_equal.
    apply bool_decide_ext. by apply wf_mem_recency.
  - intros k v (p1 & p2 & Hsplit)%list_elem_of_split.
    destruct (lru_get_present_recency s k v p1 p2 tt Hwf Hsplit)
      as (s' & Hget & Hitem & _).
    by exists s'.
Qed.
End lru_from_init.

(** ** LRUCache constructed with a [maxsize] that is not positive *)

Section lru_nonpositive.
Context {K : Type} `{Countable K} {V : Type}.
Import LRUCache.
Implicit Types (s : LRUCache.t K V) (key k : K) (value v : V).

Lemma lru_first_set_nonpositive (maxsize : Z) key value :
  maxsize ≤ 0 →
  LRUCache.set key value (__init__ maxsize) =
    (Ok tt, Build maxsize ∅ true 0%nat 0 0 [Some (Link 0%nat 0%nat key value)]).
Proof.
  intros Hm. unfold LRUCache.set, __init__. rewrite bind_gets. lru_proj.
  rewrite lookup_empty. rewrite bind_gets. unfold truthy. rewrite bind_gets.
  simpl. unfold slice_assign. rewrite bind_modify, bind_gets, bind_modify, bind_gets.
  unfold __len__. rewrite !bind_gets. simpl.
  rewrite map_size_insert_None, map_size_empty by apply lookup_empty.
  rewrite (proj2 (Z.ltb_lt _ _)) by lia.
  rewrite bind_modify, bind_gets. simpl.
  unfold item0, item2, setitem0, setitem1, getitem_field, setitem_with, bind. simpl.
  unfold cache_delitem. simpl. rewrite lookup_insert_eq.
  by rewrite delete_insert_eq, delete_empty.
Qed.

Lemma lru_second_set_nonpositive (maxsize : Z) (a b : K) (va vb : V) :
  a ≠ b →
  LRUCache.set b vb
    (Build maxsize ∅ true 0%nat 0 0 [Some (Link 0%nat 0%nat a va)]) =
    (Raise (KeyError a),
     Build maxsize {[b := 1%nat]} true 1%nat 0 0
       [Some (Link 1%nat 1%nat a va); Some (Link 1%nat 1%nat b vb)]).
Proof.
  intros Hab. unfold LRUCache.set. rewrite bind_gets. lru_proj.
  rewrite lookup_empty. rewrite bind_gets. unfold truthy. rewrite bind_gets.
  simpl. unfold item0, item2, setitem0, setitem1, getitem_field, setitem_with,
    new_list, bind, gets, modify, __len__. simpl.
  unfold cache_delitem. simpl. rewrite lookup_insert_ne by done.
  by rewrite lookup_empty.
Qed.

(** X13. An LRUCache constructed with [maxsize] at most 0: the first [set]
    returns, but the entry it links is evicted at once, so the cache is
    empty and does not contain the key. A [set] of another key then raises
    [KeyError] for the first key (the eviction deletes a key the mapping no
    longer has) and leaves the new key cached: one key, more than
    [maxsize]. *)
Theorem lru_nonpositive_maxsize (maxsize : Z) (a b : K) (va vb : V) :
  maxsize ≤ 0 → a ≠ b →
  ∃ s1 s2,
    LRUCache.set a va (__init__ maxsize) = (Ok tt, s1) ∧
    __len__ s1 = (Ok 0, s1) ∧ __contains__ a s1 = (Ok false, s1) ∧
    LRUCache.set b vb s1 = (Raise (KeyError a), s2) ∧
    __len__ s2 = (Ok 1, s2) ∧ __contains__ b s2 = (Ok true, s2) ∧
    _maxsize s2 = maxsize.
Proof.
  intros Hm Hab. eexists _, _.
  split; [by apply lru_first_set_nonpositive|].
  split; [done|]. split; [done|].
  split; [by apply lru_second_set_nonpositive|].
  split; [|split; [|done]].
  - unfold __len__, gets. simpl. by rewrite map_size_singleton.
  - unfold __contains__, gets. simpl. rewrite lookup_singleton_eq.
    by rewrite bool_decide_eq_true_2.
Qed.
End lru_nonpositive.

(** ** Further properties of FIFOCache *)

Section fifo_more.
Context {K : Type} `{EqDecision K} {V : Type}.
Import FIFOCache.
Implicit Types (s : FIFOCache.t K V) (d : dict K V) (key k : K) (value v : V).

Lemma dict_get_None_keys k d : dict_get k d = None ↔ k ∉ dict_keys d.
Proof.
  unfold dict_keys. induction d as [|[k0 v0] d IH]; simpl.
  - split; [intros _; apply not_elem_of_nil|done].
  - rewrite not_elem_of_cons. case_decide as Hk; simpl.
    + split; [done|]. by intros [? _].
    + rewrite IH. split; [by split|by intros [_ ?]].
Qed.

Lemma dict_setitem_absent key value d :
  dict_get key d = None → dict_setitem key value d = d ++ [(key, value)].
Proof.
  induction d as [|[k0 v0] d IH]; simpl; [done|].
  case_decide; [done|]. intros Hd. by rewrite IH.
Qed.

(** What [set] does to the dict, whenever [maxsize] is positive. *)
Lemma fifo_set_cases s key value :
  0 < _maxsize s →
  ∃ d', FIFOCache.set key value s = (Ok tt, with_cache d' s) ∧
    ((is_Some (dict_get key (_cache s)) ∧
      d' = dict_setitem key value (_cache s)) ∨
     (dict_get key (_cache s) = None ∧
      Z.of_nat (length (_cache s)) < _maxsize s ∧
      d' = _cache s ++ [(key, value)]) ∨
     (dict_get key (_cache s) = None ∧
      _maxsize s ≤ Z.of_nat (length (_cache s)) ∧
      ∃ kv0 rest, _cache s = kv0 :: rest ∧ d' = rest ++ [(key, value)])).
Proof.
  intros Hm. destruct (dict_contains key (_cache s)) eqn:Hc.
  - eexists. split; [by apply fifo_set_present|]. left.
    split; [by apply dict_contains_true|done].
  - pose proof Hc as Hnone%dict_contains_false.
    destruct (decide (Z.of_nat (length (_cache s)) < _maxsize s)) as [Hroom|Hfull].
    + eexists. split; [by apply fifo_set_absent_room|]. right. left.
      split_and!; try done. by apply dict_setitem_absent.
    + destruct (_cache s) as [|[k0 v0] rest] eqn:Hcache; [simpl in *; lia|].
      eexists. split.
      { eapply fifo_set_absent_full; [done|by rewrite Hcache|rewrite Hcache; lia]. }
      right. right. split_and!; [done|lia|].
      exists (k0, v0), rest. split; [done|]. apply dict_setitem_absent.
      simpl in Hnone. by case_decide.
Qed.

Lemma fifo_getitem_present s key v :
  dict_get key (_cache s) = Some v →
  __getitem__ key s = (Ok v, with_hits (hits s + 1) s).
Proof.
  intros Hk. unfold __getitem__, try_except_finally, cache_getitem.
  by rewrite Hk.
Qed.

Lemma fifo_set_keeps_inv s key value :
  0 < _maxsize s → NoDup (dict_keys (_cache s)) →
  Z.of_nat (length (_cache s)) ≤ _maxsize s →
  let s' := (FIFOCache.set key value s).2 in
  0 < _maxsize s' ∧ NoDup (dict_keys (_cache s')) ∧
  Z.of_nat (length (_cache s')) ≤ _maxsize s'.
Proof.
  intros Hm Hnd Hcap.
  destruct (fifo_set_cases s key value Hm) as (d' & -> & Hcases). simpl.
  split; [done|].
  destruct Hcases as [[Hin ->]|[(Hnone & Hroom & ->)|(Hnone & Hfull & kv0 & rest & Hc & ->)]].
  - split.
    + by rewrite dict_keys_setitem_present.
    + rewrite length_dict_setitem.
      by rewrite (proj2 (dict_contains_true _ _) Hin).
  - split.
    + unfold dict_keys. rewrite fmap_app. apply NoDup_app. split_and!; [done| |].
      * intros k Hk ->%list_elem_of_singleton. by apply dict_get_None_keys in Hnone.
      * apply NoDup_singleton.
    + rewrite length_app. simpl. lia.
  - rewrite Hc in *. apply dict_get_None_keys in Hnone.
    unfold dict_keys in *. rewrite fmap_cons in Hnd, Hnone.
    apply NoDup_cons in Hnd as [_ Hnd]. apply not_elem_of_cons in Hnone as [_ Hnone].
    split.
    + rewrite fmap_app. apply NoDup_app. split_and!; [done| |apply NoDup_singleton].
      by intros k Hk ->%list_elem_of_singleton.
    + rewrite length_app. simpl in *. lia.
Qed.

(** X14. However a FIFOCache constructed with a positive [maxsize] is
    called, its dict holds each key once and never more than [maxsize]
    keys. *)
Theorem fifo_reachable_invariant s :
  fifo_reachable s →
  0 < _maxsize s ∧ NoDup (dict_keys (_cache s)) ∧
  Z.of_nat (length (_cache s)) ≤ _maxsize s.
Proof.
  induction 1 as [maxsize Hm|s c _ (Hm & Hnd & Hcap)].
  - simpl. split_and!; [done|constructor|lia].
  - destruct c as [key value|key|key|key| | | |]; simpl; try done.
    + by apply fifo_set_keeps_inv.
    + unfold __getitem__, try_except_finally, cache_getitem, bind. simpl.
      by destruct (dict_get key (_cache s)).
    + split_and!; [done|constructor|lia].
Qed.

(** X15. Round trip: on any FIFOCache with a positive [maxsize], [set]
    returns, and a lookup of the key by either form then returns the value
    just set. *)
Theorem fifo_set_then_get {D} s key value (default : D) :
  0 < _maxsize s →
  ∃ s', FIFOCache.set key value s = (Ok tt, s') ∧
    get key default s' = (Ok (inl value), s') ∧
    __getitem__ key s' = (Ok value, with_hits (hits s' + 1) s').
Proof.
  intros Hm. destruct (fifo_set_cases s key value Hm) as (d' & Hset & Hcases).
  assert (dict_get key d' = Some value) as Hget.
  { destruct Hcases as [[Hin ->]|[(Hnone & _ & ->)|(Hnone & _ & kv0 & rest & Hc & ->)]].
    - by rewrite dict_get_setitem, decide_True.
    - by rewrite <-(dict_setitem_absent key value), dict_get_setitem, decide_True.
    - rewrite <-(dict_setitem_absent key value), dict_get_setitem, decide_True; [done..|].
      rewrite Hc in Hnone. destruct kv0. simpl in Hnone. by case_decide. }
  eexists. split; [exact Hset|]. split.
  - unfold get, gets. simpl. by rewrite Hget.
  - by apply fifo_getitem_present.
Qed.

(** X16. [set] of a new key on a cache at capacity evicts exactly the
    oldest entry: the dict loses its first entry and gains the new pair at
    the end, so the evicted key is no longer found and every other key
    keeps its value and its place in the order. *)
Theorem fifo_set_new_key_evicts_oldest {D} s key value k0 v0 rest (default : D) :
  NoDup (dict_keys (_cache s)) →
  _cache s = (k0, v0) :: rest → dict_get key (_cache s) = None →
  _maxsize s ≤ Z.of_nat (length (_cache s)) →
  ∃ s', FIFOCache.set key value s = (Ok tt, s') ∧
    _cache s' = rest ++ [(key, value)] ∧
    get k0 default s' = (Ok (inr default), s') ∧
    (∀ k, k ≠ k0 → k ≠ key → dict_get k (_cache s') = dict_get k (_cache s)) ∧
    length (_cache s') = length (_cache s).
Proof.
  intros Hnd Hc Hnone Hfull.
  assert (key ≠ k0 ∧ dict_get key rest = None) as [Hne Hnone'].
  { rewrite Hc in Hnone. simpl in Hnone. case_decide; [done|]. by split. }
  assert (dict_get k0 rest = None) as Hk0.
  { apply dict_get_None_keys. rewrite Hc in Hnd. unfold dict_keys in Hnd.
    rewrite fmap_cons in Hnd. by apply NoDup_cons in Hnd as [? _]. }
  eexists. split.
  { eapply fifo_set_absent_full; [done|by apply dict_contains_false|done]. }
  simpl. rewrite (dict_setitem_absent _ _ _ Hnone'). split_and!; try done.
  - unfold get, gets. simpl.
    rewrite <-(dict_setitem_absent key value) by done.
    by rewrite dict_get_setitem, decide_False, Hk0.
  - intros k Hk Hkk. rewrite <-(dict_setitem_absent key value) by done.
    rewrite dict_get_setitem, decide_False by done.
    rewrite Hc. simpl. by rewrite decide_False.
  - rewrite Hc, length_app. simpl. lia.
Qed.

Lemma fifo_sets_dict (maxsize : Z) (kvs : list (K * V)) :
  0 < maxsize → NoDup kvs.*1 →
  ∃ s, run_all (fifo_set_calls kvs) (__init__ maxsize) = (Ok tt, s) ∧
    _maxsize s = maxsize ∧
    _cache s = drop (length kvs - Z.to_nat maxsize) kvs.
Proof.
  intros Hm. induction kvs as [|[k v] pre IH] using rev_ind; intros Hnd.
  - by exists (__init__ maxsize).
  - rewrite fmap_app in Hnd. apply NoDup_app in Hnd as (Hnd & Hnin & _).
    destruct (IH Hnd) as (s & Hrun & Hms & Hcache).
    assert (dict_get k (_cache s) = None) as Hk.
    { apply dict_get_None_keys. rewrite Hcache. intros Hin.
      apply list_elem_of_fmap in Hin as (kv & -> & Hin).
      apply list_elem_of_lookup in Hin as (i & Hin). rewrite lookup_drop in Hin.
      apply list_elem_of_lookup_2 in Hin.
      apply (Hnin kv.1); [|left]. apply list_elem_of_fmap. by exists kv. }
    destruct (fifo_set_cases s k v) as (d' & Hset & Hcases); [lia|].
    exists (with_cache d' s). split; [|split; [done|]].
    { unfold fifo_set_calls. rewrite fmap_app. erewrite run_all_app by exact Hrun.
      simpl. by erewrite bind_ok by exact Hset. }
    simpl. rewrite length_app. simpl length.
    assert (length (_cache s) = length pre - (length pre - Z.to_nat maxsize))%nat
      as Hlen by (by rewrite Hcache, length_drop).
    destruct Hcases as [[[? Hin] _]|[(_ & Hroom & ->)|(_ & Hfull & kv0 & rest & Hc & ->)]].
    + congruence.
    + rewrite Hcache.
      replace (length pre - Z.to_nat maxsize)%nat with 0%nat by lia.
      replace (length pre + 1 - Z.to_nat maxsize)%nat with 0%nat by lia. done.
    + rewrite drop_app_le by lia. f_equal.
      replace (length pre + 1 - Z.to_nat maxsize)%nat
        with (length pre - Z.to_nat maxsize + 1)%nat by lia.
      rewrite <-drop_drop, <-Hcache, Hc. done.
Qed.

(** X17. A new FIFOCache of capacity [maxsize > 0] after [set] calls with
    pairwise distinct keys holds exactly the last [maxsize] pairs set (all
    of them if there are fewer), in the order they were set. *)
Theorem fifo_keeps_last_inserted (maxsize : Z) (kvs : list (K * V)) :
  0 < maxsize → NoDup kvs.*1 →
  ∃ s, run_all (fifo_set_calls kvs) (__init__ maxsize) = (Ok tt, s) ∧
    _cache s = drop (length kvs - Z.to_nat maxsize) kvs.
Proof.
  intros Hm Hnd. destruct (fifo_sets_dict maxsize kvs Hm Hnd) as (s & ? & _ & ?).
  by exists s.
Qed.

Lemma fifo_getitem_state s k :
  (fifo_call (V:=V) (FCallGetitem k) s).2 =
  Build (_maxsize s) (_cache s) (hits s + 1)
    (misses s + Z.of_nat (count_absent (_cache s) [k])).
Proof.
  unfold count_absent. rewrite filter_cons, filter_nil. simpl fifo_call.
  destruct (dict_get k (_cache s)) as [v|] eqn:Hk.
  - rewrite decide_False by done. erewrite bind_ok by (by apply fifo_getitem_present).
    destruct s. unfold with_hits. simpl. f_equal. lia.
  - rewrite decide_True by done. erewrite bind_raise by (by apply fifo_getitem_absent).
    done.
Qed.

(** X18. Accounting of indexed accesses: any sequence of [__getitem__]
    calls, the caller catching each [KeyError], leaves the dict and
    [maxsize] as they were, raises [hits] by the number of calls (the
    failed ones included) and [misses] by the number of absent keys. *)
Theorem fifo_indexed_access_accounting s (ks : list K) :
  exec (getitem_calls ks) s =
  Build (_maxsize s) (_cache s) (hits s + Z.of_nat (length ks))
    (misses s + Z.of_nat (count_absent (_cache s) ks)).
Proof.
  revert s. induction ks as [|k ks IH]; intros s.
  - unfold count_absent. rewrite filter_nil. destruct s. simpl.
    unfold exec. simpl. f_equal; lia.
  - unfold getitem_calls. rewrite fmap_cons, exec_cons.
    fold (getitem_calls (V:=V) ks).
    rewrite IH, fifo_getitem_state. simpl.
    unfold count_absent. rewrite (filter_cons _ k ks), filter_cons, filter_nil.
    destruct (decide (dict_get k (_cache s) = None)); simpl; f_equal; lia.
Qed.
End fifo_more.

(** ** Instances of the further properties *)

Section more_scenarios.
Local Open Scope string_scope.
Local Open Scope list_scope.
Local Open Scope Z_scope.

Lemma ex_lru_a_reachable : reachable ex_lru_a.
Proof. apply reachable_call, reachable_init. lia. Qed.

Lemma ex_lru_ab_reachable : reachable ex_lru_ab.
Proof. apply reachable_call, ex_lru_a_reachable. Qed.

Lemma ex_lru_full_reachable : reachable ex_lru_full.
Proof. do 2 apply reachable_call. apply reachable_init. lia. Qed.

(** X1 on the cache holding ["a"] and ["b"]. *)
Lemma lru_recency_represents_witness :
  wf ex_lru_ab ∧
  NoDup (recency ex_lru_ab).*1 ∧
  LRUCache.__len__ ex_lru_ab = (Ok (Z.of_nat (length (recency ex_lru_ab))), ex_lru_ab).
Proof.
  assert (wf ex_lru_ab) as Hwf by apply reachable_wf, ex_lru_ab_reachable.
  split; [exact Hwf|].
  destruct (lru_recency_represents ex_lru_ab Hwf) as (Hnd & Hlen & _).
  split; [exact Hnd|exact Hlen].
Defined.

(** X2 on the cache of capacity 2 holding ["a"]. *)
Lemma lru_set_new_key_with_room_witness :
  wf ex_lru_a ∧ LRUCache._cache ex_lru_a !! "b" = None ∧
  LRUCache._full ex_lru_a = false ∧
  Z.of_nat (size (LRUCache._cache ex_lru_a)) < LRUCache._maxsize ex_lru_a ∧
  ∃ s', LRUCache.set "b" 2 ex_lru_a = (Ok tt, s') ∧
    recency s' = ("b", 2) :: recency ex_lru_a ∧
    wf s' ∧ LRUCache._full s' = false ∧
    LRUCache._maxsize s' = LRUCache._maxsize ex_lru_a.
Proof.
  assert (wf ex_lru_a) as Hwf by apply reachable_wf, ex_lru_a_reachable.
  assert (Z.of_nat (size (LRUCache._cache ex_lru_a)) < LRUCache._maxsize ex_lru_a)
    as Hroom by (vm_compute; reflexivity).
  split; [exact Hwf|]. split; [reflexivity|]. split; [reflexivity|].
  split; [exact Hroom|].
  apply (lru_set_new_key_with_room ex_lru_a "b" 2 Hwf eq_refl eq_refl Hroom).
Defined.


(** X4 on the cache holding ["b"], ["a"] from most to least recent. *)
Lemma lru_lookup_promotes_witness :
  wf ex_lru_ab ∧ recency ex_lru_ab = [("b", 2)] ++ ("a", 1) :: [] ∧
  ∃ s', LRUCache.get "a" tt ex_lru_ab = (Ok (inl 1), s') ∧
    LRUCache.__getitem__ "a" ex_lru_ab = (Ok 1, s') ∧
    recency s' = ("a", 1) :: [("b", 2)] ++ [].
Proof.
  assert (wf ex_lru_ab) as Hwf by apply reachable_wf, ex_lru_ab_reachable.
  split; [exact Hwf|]. split; [reflexivity|].
  destruct (lru_lookup_promotes ex_lru_ab "a" 1 [("b", 2)] [] tt Hwf eq_refl)
    as (s' & Hget & Hgetitem & Hrec & _).
  exists s'. split; [exact Hget|]. split; [exact Hgetitem|exact Hrec].
Defined.

(** X5 on the cache holding ["a"]. *)
Lemma lru_set_then_get_witness :
  wf ex_lru_a ∧ LRUCache._cache ex_lru_a !! "b" = None ∧
  ∃ s' s'', LRUCache.set "b" 2 ex_lru_a = (Ok tt, s') ∧
    LRUCache.get "b" tt s' = (Ok (inl 2), s'') ∧
    LRUCache.__getitem__ "b" s' = (Ok 2, s'').
Proof.
  assert (wf ex_lru_a) as Hwf by apply reachable_wf, ex_lru_a_reachable.
  split; [exact Hwf|]. split; [reflexivity|].
  apply (lru_set_then_get ex_lru_a "b" 2 tt Hwf eq_refl).
Defined.



(** X8 on the cache holding ["a"] and ["b"]. *)
Lemma lru_clear_resets_witness :
  0 < LRUCache._maxsize ex_lru_ab ∧
  ∃ s', LRUCache.clear ex_lru_ab = (Ok tt, s') ∧ wf s' ∧
    LRUCache._cache s' = ∅ ∧ recency s' = [] ∧ LRUCache._full s' = false ∧
    LRUCache.hits s' = LRUCache.hits ex_lru_ab ∧
    LRUCache.misses s' = LRUCache.misses ex_lru_ab ∧
    LRUCache._maxsize s' = LRUCache._maxsize ex_lru_ab.
Proof.
  assert (0 < LRUCache._maxsize ex_lru_ab) as Hm by (vm_compute; reflexivity).
  split; [exact Hm|]. apply (lru_clear_resets ex_lru_ab Hm).
Defined.

(** X9 on the cache holding ["a"]: two hits and one miss. *)
Lemma lru_hit_miss_accounting_witness :
  wf ex_lru_a ∧
  ∃ s', run_all (get_calls ["a"; "z"; "a"]) ex_lru_a = (Ok tt, s') ∧ wf s' ∧
    LRUCache._cache s' = LRUCache._cache ex_lru_a ∧
    LRUCache.hits s' = LRUCache.hits ex_lru_a +
      Z.of_nat (count_present (LRUCache._cache ex_lru_a) ["a"; "z"; "a"]) ∧
    LRUCache.misses s' = LRUCache.misses ex_lru_a +
      Z.of_nat (length ["a"; "z"; "a"] -
                count_present (LRUCache._cache ex_lru_a) ["a"; "z"; "a"]).
Proof.
  assert (wf ex_lru_a) as Hwf by apply reachable_wf, ex_lru_a_reachable.
  split; [exact Hwf|]. apply (lru_hit_miss_accounting ex_lru_a _ Hwf).
Defined.

(** X11 on the cache of capacity 1 that has evicted. *)
Lemma lru_reachable_capacity_witness :
  reachable ex_lru_full ∧
  wf ex_lru_full ∧ 0 < LRUCache._maxsize ex_lru_full ∧
  Z.of_nat (size (LRUCache._cache ex_lru_full)) ≤ LRUCache._maxsize ex_lru_full.
Proof.
  split; [exact ex_lru_full_reachable|].
  apply (lru_reachable_capacity ex_lru_full ex_lru_full_reachable).
Defined.

(** X12 at capacity 2 with three keys. *)
Lemma lru_keeps_last_inserted_witness :
  0 < 2 ∧ NoDup ["a"; "b"; "c"] ∧
  ∃ s : LRUCache.t string Z,
    run_all (set_calls [("a", 1); ("b", 2); ("c", 3)]) (LRUCache.__init__ 2)
      = (Ok tt, s) ∧
    wf s ∧ LRUCache._maxsize s = 2 ∧
    recency s = [("c", 3); ("b", 2)] ∧
    dom (LRUCache._cache s) = list_to_set ["c"; "b"] ∧
    LRUCache.__len__ s = (Ok 2, s) ∧
    (∀ k, LRUCache.__contains__ k s = (Ok (bool_decide (k ∈ ["c"; "b"])), s)) ∧
    (∀ k v, (k, v) ∈ [("c", 3); ("b", 2)] →
       ∃ s', LRUCache.get k tt s = (Ok (inl v), s') ∧
         LRUCache.__getitem__ k s = (Ok v, s')).
Proof.
  assert (NoDup ["a"; "b"; "c"]) as Hnd by (by apply (bool_decide_unpack _)).
  split; [lia|]. split; [exact Hnd|].
  apply (lru_keeps_last_inserted 2 [("a", 1); ("b", 2); ("c", 3)]); [lia|exact Hnd].
Defined.

(** X13 at [maxsize = 0] with the keys ["a"] and ["b"]. *)
Lemma lru_nonpositive_maxsize_witness :
  0 ≤ 0 ∧ "a" ≠ "b" ∧
  ∃ s1 s2 : LRUCache.t string Z,
    LRUCache.set "a" 1 (LRUCache.__init__ 0) = (Ok tt, s1) ∧
    LRUCache.__len__ s1 = (Ok 0, s1) ∧
    LRUCache.__contains__ "a" s1 = (Ok false, s1) ∧
    LRUCache.set "b" 2 s1 = (Raise (KeyError "a"), s2) ∧
    LRUCache.__len__ s2 = (Ok 1, s2) ∧
    LRUCache.__contains__ "b" s2 = (Ok true, s2) ∧
    LRUCache._maxsize s2 = 0.
Proof.
  assert ("a" ≠ "b") as Hab by discriminate.
  split; [lia|]. split; [exact Hab|].
  apply (lru_nonpositive_maxsize 0 "a" "b" 1 2); [lia|exact Hab].
Defined.

Lemma ex_fifo_ab_reachable : fifo_reachable ex_fifo_ab.
Proof.
  do 2 apply fifo_reachable_call. apply fifo_reachable_init. lia.
Qed.

(** X14 on the cache holding ["a"] and ["b"]. *)
Lemma fifo_reachable_invariant_witness :
  fifo_reachable ex_fifo_ab ∧
  0 < FIFOCache._maxsize ex_fifo_ab ∧
  NoDup (FIFOCache.dict_keys (FIFOCache._cache ex_fifo_ab)) ∧
  Z.of_nat (length (FIFOCache._cache ex_fifo_ab)) ≤ FIFOCache._maxsize ex_fifo_ab.
Proof.
  split; [exact ex_fifo_ab_reachable|].
  apply (fifo_reachable_invariant ex_fifo_ab ex_fifo_ab_reachable).
Defined.

(** X15 on the full cache holding ["a"] and ["b"], with a new key. *)
Lemma fifo_set_then_get_witness :
  0 < FIFOCache._maxsize ex_fifo_ab ∧
  ∃ s', FIFOCache.set "c" 3 ex_fifo_ab = (Ok tt, s') ∧
    FIFOCache.get "c" tt s' = (Ok (inl 3), s') ∧
    FIFOCache.__getitem__ "c" s' =
      (Ok 3, FIFOCache.with_hits (FIFOCache.hits s' + 1) s').
Proof.
  assert (0 < FIFOCache._maxsize ex_fifo_ab) as Hm by (vm_compute; reflexivity).
  split; [exact Hm|]. apply (fifo_set_then_get ex_fifo_ab "c" 3 tt Hm).
Defined.

(** X16 on the full cache holding ["a"] and ["b"]. *)
Lemma fifo_set_new_key_evicts_oldest_witness :
  NoDup (FIFOCache.dict_keys (FIFOCache._cache ex_fifo_ab)) ∧
  FIFOCache._cache ex_fifo_ab = ("a", 1) :: [("b", 2)] ∧
  FIFOCache.dict_get "c" (FIFOCache._cache ex_fifo_ab) = None ∧
  FIFOCache._maxsize ex_fifo_ab ≤ Z.of_nat (length (FIFOCache._cache ex_fifo_ab)) ∧
  ∃ s', FIFOCache.set "c" 3 ex_fifo_ab = (Ok tt, s') ∧
    FIFOCache._cache s' = [("b", 2)] ++ [("c", 3)] ∧
    FIFOCache.get "a" tt s' = (Ok (inr tt), s').
Proof.
  assert (NoDup (FIFOCache.dict_keys (FIFOCache._cache ex_fifo_ab))) as Hnd
    by (by apply (bool_decide_unpack _)).
  assert (FIFOCache._maxsize ex_fifo_ab
          ≤ Z.of_nat (length (FIFOCache._cache ex_fifo_ab))) as Hfull
    by (vm_compute; discriminate).
  assert (FIFOCache._cache ex_fifo_ab = ("a", 1) :: [("b", 2)]) as Hcache
    by reflexivity.
  assert (FIFOCache.dict_get "c" (FIFOCache._cache ex_fifo_ab) = None) as Hnone
    by reflexivity.
  split; [exact Hnd|]. split; [exact Hcache|]. split; [exact Hnone|].
  split; [exact Hfull|].
  destruct (fifo_set_new_key_evicts_oldest ex_fifo_ab "c" 3 "a" 1 [("b", 2)] tt
              Hnd Hcache Hnone Hfull) as (s' & Hset & Hc & Hget & _).
  exists s'. split; [exact Hset|]. split; [exact Hc|exact Hget].
Defined.

(** X17 at capacity 2 with three keys. *)
Lemma fifo_keeps_last_inserted_witness :
  0 < 2 ∧ NoDup ["a"; "b"; "c"] ∧
  ∃ s : FIFOCache.t string Z,
    run_all (fifo_set_calls [("a", 1); ("b", 2); ("c", 3)]) (FIFOCache.__init__ 2)
      = (Ok tt, s) ∧
    FIFOCache._cache s =
      drop (length [("a", 1); ("b", 2); ("c", 3)] - Z.to_nat 2)
        [("a", 1); ("b", 2); ("c", 3)].
Proof.
  assert (NoDup ["a"; "b"; "c"]) as Hnd by (by apply (bool_decide_unpack _)).
  split; [lia|]. split; [exact Hnd|].
  apply (fifo_keeps_last_inserted 2 [("a", 1); ("b", 2); ("c", 3)]); [lia|exact Hnd].
Defined.
End more_scenarios.
